(** * BilliardsAim: the geometry and drag engine of the aiming widget

    A shallow embedding of [BilliardsAim.tsx]: the 2D vector helpers, the
    table geometry (clamping to the play field and to the rails), the two
    aim computations ([pocketData], [railData]) and the pointer handlers
    that drive the component state.

    Numbers.  A TypeScript [number] is modelled as a real number of the
    Standard Library ([R]); [Math.hypot], [Math.min], [Math.max],
    [Math.abs] and [Math.acos] become [sqrt] of the sum of squares, [Rmin],
    [Rmax], [Rabs] and [acos].  Rounding, infinities and NaN are outside
    the model.  Comparisons ([<=], [===]) are the decidable comparisons of
    [R]. *)

From Stdlib Require Import Reals Lra Lia List String Bool.
Import ListNotations.
Open Scope R_scope.

(** ** Constants *)

Definition TABLE_W : R := 1000.
Definition TABLE_H : R := 500.
Definition BALL_R : R := 12.
Definition CUSHION : R := 30.

(** ** Points and pockets *)

Record Point : Type := mkPoint { x : R; y : R }.

(** A pocket is the object literal [{ id, x, y }]; the source passes it
    wherever a [Point] is expected, which the coercion [at_point] renders. *)
Record Pocket : Type := mkPocket { id : string; at_point :> Point }.

Definition pockets : list Pocket :=
  [ mkPocket "TL" (mkPoint 0 0);
    mkPocket "TM" (mkPoint (TABLE_W / 2) 0);
    mkPocket "TR" (mkPoint TABLE_W 0);
    mkPocket "BL" (mkPoint 0 TABLE_H);
    mkPocket "BM" (mkPoint (TABLE_W / 2) TABLE_H);
    mkPocket "BR" (mkPoint TABLE_W TABLE_H) ].

Inductive Mode : Type := pocket | rail1.

(** ** Scalar helpers *)

Definition num_le (a b : R) : bool := if Rle_dec a b then true else false.
Definition num_eq (a b : R) : bool := if Req_dec_T a b then true else false.

Definition hypot (a b : R) : R := sqrt (a * a + b * b).

Definition clamp (val min max : R) : R := Rmin (Rmax val min) max.

Definition clampPointToInner (p : Point) : Point :=
  {| x := clamp p.(x) BALL_R (TABLE_W - BALL_R);
     y := clamp p.(y) BALL_R (TABLE_H - BALL_R) |}.

(** ** Vector helpers *)

Definition dist (a b : Point) : R :=
  let dx := a.(x) - b.(x) in
  let dy := a.(y) - b.(y) in
  hypot dx dy.

Definition sub (a b : Point) : Point := {| x := a.(x) - b.(x); y := a.(y) - b.(y) |}.
Definition add (a b : Point) : Point := {| x := a.(x) + b.(x); y := a.(y) + b.(y) |}.
Definition mul (a : Point) (k : R) : Point := {| x := a.(x) * k; y := a.(y) * k |}.
Definition len (v : Point) : R := hypot v.(x) v.(y).

(** [len(v) || 1]: a length of zero is falsy and is replaced by [1]. *)
Definition norm (v : Point) : Point :=
  let l := if Req_dec_T (len v) 0 then 1 else len v in
  {| x := v.(x) / l; y := v.(y) / l |}.

Definition dot (a b : Point) : R := a.(x) * b.(x) + a.(y) * b.(y).

Definition angleBetween (a b : Point) : R :=
  let na := norm a in
  let nb := norm b in
  acos (clamp (dot na nb) (-1) 1).

Definition reflect (v n : Point) : Point :=
  let nn := norm n in
  let k := 2 * dot v nn in
  sub v (mul nn k).

Definition ghostBallForPocket (object pk : Point) : Point :=
  let v := sub object pk in
  let n := norm v in
  add object (mul n (2 * BALL_R)).

(** ** Rails *)

Inductive RailEdge : Type := top | bottom | left | right.

Record RailHit : Type := mkRailHit { point : Point; edge : RailEdge }.

Definition clampToRail (p : Point) : RailHit :=
  let dTop := p.(y) in
  let dBottom := TABLE_H - p.(y) in
  let dLeft := p.(x) in
  let dRight := TABLE_W - p.(x) in
  let min := Rmin (Rmin (Rmin dTop dBottom) dLeft) dRight in
  if num_eq min dTop then
    {| point := {| x := clamp p.(x) 0 TABLE_W; y := 0 |}; edge := top |}
  else if num_eq min dBottom then
    {| point := {| x := clamp p.(x) 0 TABLE_W; y := TABLE_H |}; edge := bottom |}
  else if num_eq min dLeft then
    {| point := {| x := 0; y := clamp p.(y) 0 TABLE_H |}; edge := left |}
  else
    {| point := {| x := TABLE_W; y := clamp p.(y) 0 TABLE_H |}; edge := right |}.

Definition edgeNormal (e : RailEdge) : Point :=
  match e with
  | top => {| x := 0; y := 1 |}
  | bottom => {| x := 0; y := -1 |}
  | left => {| x := 1; y := 0 |}
  | right => {| x := -1; y := 0 |}
  end.

Definition isInsideCircle (p c : Point) (r : R) : bool := num_le (dist p c) r.

(** ** Component state

    The [useState] cells of the component and the drag reference.  A
    pocket identifier is a [string], as in the source; the tagged strings
    of [DragTarget] become constructors. *)

Inductive DragTarget : Type :=
| T_cue
| T_obj
| T_rail
| T_none
| T_pocket (pocketId : string).

Record State : Type := mkState {
  mode : Mode;
  cue : Point;
  obj : Point;
  selectedPocketId : string;
  railPoint : Point;
  target : DragTarget
}.

Definition setMode (m : Mode) (s : State) : State :=
  mkState m s.(cue) s.(obj) s.(selectedPocketId) s.(railPoint) s.(target).
Definition setCue (p : Point) (s : State) : State :=
  mkState s.(mode) p s.(obj) s.(selectedPocketId) s.(railPoint) s.(target).
Definition setObj (p : Point) (s : State) : State :=
  mkState s.(mode) s.(cue) p s.(selectedPocketId) s.(railPoint) s.(target).
Definition setSelectedPocketId (i : string) (s : State) : State :=
  mkState s.(mode) s.(cue) s.(obj) i s.(railPoint) s.(target).
Definition setRailPoint (p : Point) (s : State) : State :=
  mkState s.(mode) s.(cue) s.(obj) s.(selectedPocketId) p s.(target).
Definition setTarget (t : DragTarget) (s : State) : State :=
  mkState s.(mode) s.(cue) s.(obj) s.(selectedPocketId) s.(railPoint) t.

Definition defaultCue : Point := {| x := TABLE_W * 0.25; y := TABLE_H * 0.7 |}.
Definition defaultObj : Point := {| x := TABLE_W * 0.6; y := TABLE_H * 0.4 |}.
Definition defaultRailPoint : Point := {| x := TABLE_W * 0.7; y := 10 |}.

Definition initialState : State :=
  {| mode := pocket;
     cue := defaultCue;
     obj := defaultObj;
     selectedPocketId := "BR";
     railPoint := defaultRailPoint;
     target := T_none |}.

(** ** Derived aim geometry *)

(** [pockets.find(p => p.id === selectedPocketId)]; the source asserts the
    result with [!], so an unknown identifier is the [None] case here. *)
Definition selectedPocket (s : State) : option Pocket :=
  find (fun p => String.eqb p.(id) s.(selectedPocketId)) pockets.

Definition toDeg (rad : R) : R := (rad * 180) / PI.

Record PocketData : Type := mkPocketData {
  pd_ghost : Point;
  pd_cueLine : Point * Point;
  pd_objToPocket : Point;
  pd_cutAngleDeg : R
}.

Definition pocketDataFor (cue obj : Point) (pk : Pocket) : PocketData :=
  let ghost := ghostBallForPocket obj pk in
  let objToPocket := sub pk obj in
  let objToCue := sub cue obj in
  let cutAngleRad := angleBetween objToPocket objToCue in
  {| pd_ghost := ghost;
     pd_cueLine := (cue, ghost);
     pd_objToPocket := objToPocket;
     pd_cutAngleDeg := toDeg cutAngleRad |}.

Definition pocketData (s : State) : option PocketData :=
  match selectedPocket s with
  | Some pk => Some (pocketDataFor s.(cue) s.(obj) pk)
  | None => None
  end.

Record RailData : Type := mkRailData {
  rd_rp : Point;
  rd_edge : RailEdge;
  rd_incoming : Point;
  rd_normal : Point;
  rd_reflected : Point;
  rd_toObj : Point;
  rd_mismatchDeg : R
}.

Definition railDataFor (railPoint cue obj : Point) : RailData :=
  let hit := clampToRail railPoint in
  let rp := hit.(point) in
  let edge := hit.(edge) in
  let incoming := sub rp cue in
  let normal := edgeNormal edge in
  let reflected := reflect incoming normal in
  let toObj := sub obj rp in
  let mismatchRad := angleBetween reflected toObj in
  {| rd_rp := rp;
     rd_edge := edge;
     rd_incoming := incoming;
     rd_normal := normal;
     rd_reflected := reflected;
     rd_toObj := toObj;
     rd_mismatchDeg := toDeg mismatchRad |}.

Definition railData (s : State) : RailData :=
  railDataFor s.(railPoint) s.(cue) s.(obj).

(** ** Pointer handlers

    The handlers are taken after [clientToSvg]: their argument is the
    pointer position in play-field coordinates, with the SVG element
    mounted.  [isCoarse] is the media query evaluated once per session. *)

Section Handlers.

Variable isCoarse : bool.

Definition HIT_SCALE : R := if isCoarse then 2.0 else 1.4.
Definition RAIL_HIT_HALF : R := if isCoarse then 22 else 14.

Definition pocketDownRadius : R := 20 * (if isCoarse then 1.3 else 1).
Definition pocketMoveRadius : R := 25 * (if isCoarse then 1.3 else 1).

Definition onPointerDown (p : Point) (s : State) : State :=
  match find (fun pk : Pocket => isInsideCircle p pk pocketDownRadius) pockets with
  | Some pk => setSelectedPocketId pk.(id) (setTarget (T_pocket pk.(id)) s)
  | None =>
      if isInsideCircle p s.(cue) (BALL_R * HIT_SCALE) then setTarget T_cue s
      else if isInsideCircle p s.(obj) (BALL_R * HIT_SCALE) then setTarget T_obj s
      else
        let rp := (railData s).(rd_rp) in
        if num_le (Rabs (p.(x) - rp.(x))) RAIL_HIT_HALF
           && num_le (Rabs (p.(y) - rp.(y))) RAIL_HIT_HALF
        then setTarget T_rail s
        else setTarget T_none s
  end.

Definition onPointerMove (p : Point) (s : State) : State :=
  match s.(target) with
  | T_none => s
  | T_cue => setCue (clampPointToInner p) s
  | T_obj => setObj (clampPointToInner p) s
  | T_rail =>
      setRailPoint {| x := clamp p.(x) 0 TABLE_W; y := clamp p.(y) 0 TABLE_H |} s
  | T_pocket _ =>
      match find (fun pk : Pocket => isInsideCircle p pk pocketMoveRadius) pockets with
      | Some pk => setSelectedPocketId pk.(id) s
      | None => s
      end
  end.

Definition onPointerUp (s : State) : State := setTarget T_none s.

(** The click handler of the reset button. *)
Definition reset (s : State) : State :=
  setRailPoint {| x := TABLE_W * 0.7; y := 10 |}
    (setObj {| x := TABLE_W * 0.6; y := TABLE_H * 0.4 |}
       (setCue {| x := TABLE_W * 0.25; y := TABLE_H * 0.7 |} s)).

Inductive Event : Type :=
| PointerDown (p : Point)
| PointerMove (p : Point)
| PointerUp
| Reset
| SetMode (m : Mode).

Definition step (s : State) (e : Event) : State :=
  match e with
  | PointerDown p => onPointerDown p s
  | PointerMove p => onPointerMove p s
  | PointerUp => onPointerUp s
  | Reset => reset s
  | SetMode m => setMode m s
  end.

Definition run (s : State) (evs : list Event) : State := fold_left step evs s.

Inductive reachable : State -> Prop :=
| reach_init : reachable initialState
| reach_step : forall s e, reachable s -> reachable (step s e).

End Handlers.

(** ** Pointer coordinates and the drawing offset

    [clientToSvg] asks the DOM for the screen matrix of the SVG element
    ([getScreenCTM], which may be null) and maps the client position
    through its inverse.  The DOM's part, the map from client coordinates
    to SVG user space, is the field [toUser]; the source's own part is the
    null test and the subtraction of the cushion. *)

Record ScreenCTM : Type := mkScreenCTM { toUser : Point -> Point }.

Definition clientToSvg (ctm : option ScreenCTM) (client : Point) : Point :=
  match ctm with
  | None => {| x := 0; y := 0 |}
  | Some m =>
      let sp := m.(toUser) client in
      {| x := sp.(x) - CUSHION; y := sp.(y) - CUSHION |}
  end.

Definition outerW : R := TABLE_W + CUSHION * 2.
Definition outerH : R := TABLE_H + CUSHION * 2.

(** The translation applied to every play-field point before drawing. *)
Definition T (p : Point) : Point := {| x := p.(x) + CUSHION; y := p.(y) + CUSHION |}.

(** The handlers as the browser calls them: [svgRef.current] may be null,
    in which case nothing happens; otherwise the client position goes
    through [clientToSvg]. *)
Section EventHandlers.

Variable isCoarse : bool.

Definition onPointerDownEvent (svgRef : option (option ScreenCTM))
    (client : Point) (s : State) : State :=
  match svgRef with
  | None => s
  | Some ctm => onPointerDown isCoarse (clientToSvg ctm client) s
  end.

Definition onPointerMoveEvent (svgRef : option (option ScreenCTM))
    (client : Point) (s : State) : State :=
  match svgRef with
  | None => s
  | Some ctm => onPointerMove isCoarse (clientToSvg ctm client) s
  end.

(** [onPointerUp] reads neither [svgRef] nor the event. *)
Definition onPointerUpEvent (svgRef : option (option ScreenCTM))
    (s : State) : State :=
  onPointerUp s.

End EventHandlers.

(** ** Notions used to state the properties *)

Definition zero : Point := {| x := 0; y := 0 |}.

(** [q] lies on the ray that starts at [a] and passes through [b], at or
    beyond [b]: [q = a + t (b - a)] with [1 <= t]. *)
Definition beyond_on_ray (a b q : Point) : Prop :=
  exists t : R, 1 <= t /\ q = add a (mul (sub b a) t).

(** The fixed order in which [clampToRail] tests the edges. *)
Definition edge_rank (e : RailEdge) : nat :=
  match e with top => 0 | bottom => 1 | left => 2 | right => 3 end.

(** The quantity [clampToRail] computes for each edge: a signed offset,
    positive on the table side of the edge. *)
Definition edge_offset (p : Point) (e : RailEdge) : R :=
  match e with
  | top => p.(y)
  | bottom => TABLE_H - p.(y)
  | left => p.(x)
  | right => TABLE_W - p.(x)
  end.

(** The distance from [p] to the line carrying each edge:
    [y = 0], [y = H], [x = 0], [x = W]. *)
Definition edge_distance (p : Point) (e : RailEdge) : R :=
  match e with
  | top => Rabs (p.(y) - 0)
  | bottom => Rabs (p.(y) - TABLE_H)
  | left => Rabs (p.(x) - 0)
  | right => Rabs (p.(x) - TABLE_W)
  end.

(** [e] minimises [d], and is the first edge of the test order to do so. *)
Definition first_minimal (d : RailEdge -> R) (e : RailEdge) : Prop :=
  (forall e', d e <= d e')
  /\ (forall e', d e' = d e -> (edge_rank e <= edge_rank e')%nat).

(** [p] projected onto the edge [e], its coordinate along the edge clamped
    to the extent of the edge. *)
Definition project_on_edge (p : Point) (e : RailEdge) : Point :=
  match e with
  | top => {| x := clamp p.(x) 0 TABLE_W; y := 0 |}
  | bottom => {| x := clamp p.(x) 0 TABLE_W; y := TABLE_H |}
  | left => {| x := 0; y := clamp p.(y) 0 TABLE_H |}
  | right => {| x := TABLE_W; y := clamp p.(y) 0 TABLE_H |}
  end.

(** [q] lies on the edge [e] of the table. *)
Definition on_edge (q : Point) (e : RailEdge) : Prop :=
  match e with
  | top => q.(y) = 0 /\ 0 <= q.(x) <= TABLE_W
  | bottom => q.(y) = TABLE_H /\ 0 <= q.(x) <= TABLE_W
  | left => q.(x) = 0 /\ 0 <= q.(y) <= TABLE_H
  | right => q.(x) = TABLE_W /\ 0 <= q.(y) <= TABLE_H
  end.

(** The closed table rectangle and the interior padded by the ball radius. *)
Definition in_table (p : Point) : Prop :=
  0 <= p.(x) <= TABLE_W /\ 0 <= p.(y) <= TABLE_H.

Definition in_interior (p : Point) : Prop :=
  BALL_R <= p.(x) <= TABLE_W - BALL_R /\ BALL_R <= p.(y) <= TABLE_H - BALL_R.

(** The hit regions tested by [onPointerDown], as sets of points. *)
Section HitRegions.

Variable isCoarse : bool.

Definition pocketHit (p : Point) (pk : Pocket) : Prop :=
  dist p pk <= pocketDownRadius isCoarse.

Definition cueHit (p : Point) (s : State) : Prop :=
  dist p s.(cue) <= BALL_R * HIT_SCALE isCoarse.

Definition objHit (p : Point) (s : State) : Prop :=
  dist p s.(obj) <= BALL_R * HIT_SCALE isCoarse.

(** The square of half-side [RAIL_HIT_HALF] centred on the clamped rail
    marker. *)
Definition railHit (p : Point) (s : State) : Prop :=
  let rp := point (clampToRail s.(railPoint)) in
  Rabs (p.(x) - rp.(x)) <= RAIL_HIT_HALF isCoarse
  /\ Rabs (p.(y) - rp.(y)) <= RAIL_HIT_HALF isCoarse.

(** [pk] is the first pocket of the list whose hit circle contains [p]. *)
Definition firstPocketHit (p : Point) (pk : Pocket) : Prop :=
  exists l1 l2, pockets = l1 ++ pk :: l2
                /\ (forall q, In q l1 -> ~ pocketHit p q)
                /\ pocketHit p pk.

Definition noPocketHit (p : Point) : Prop :=
  forall q, In q pockets -> ~ pocketHit p q.

End HitRegions.

Definition is_down (e : Event) : bool :=
  match e with PointerDown _ => true | _ => false end.

(** [i] is the identifier of one of the six pockets. *)
Definition valid_pocket_id (i : string) : Prop :=
  exists pk, In pk pockets /\ id pk = i.

(** * Properties *)

(** ** Scalars *)

Lemma num_le_true (a b : R) : num_le a b = true <-> a <= b.
Proof. unfold num_le. destruct (Rle_dec a b); split; intros; try easy. Qed.

Lemma num_le_false (a b : R) : num_le a b = false <-> b < a.
Proof.
  unfold num_le. destruct (Rle_dec a b); split; intros; try easy; lra.
Qed.

Lemma num_eq_true (a b : R) : num_eq a b = true <-> a = b.
Proof. unfold num_eq. destruct (Req_dec_T a b); split; intros; try easy. Qed.

Lemma num_eq_false (a b : R) : num_eq a b = false <-> a <> b.
Proof. unfold num_eq. destruct (Req_dec_T a b); split; intros; try easy. Qed.

Lemma clamp_bounds (v lo hi : R) : lo <= hi -> lo <= clamp v lo hi <= hi.
Proof.
  intros Hb. unfold clamp, Rmin, Rmax.
  destruct (Rle_dec v lo); destruct (Rle_dec _ hi); lra.
Qed.

Lemma clamp_inside (v lo hi : R) : lo <= v <= hi -> clamp v lo hi = v.
Proof.
  intros Hb. unfold clamp, Rmin, Rmax.
  destruct (Rle_dec v lo); destruct (Rle_dec _ hi); lra.
Qed.

Lemma hypot_nonneg (a b : R) : 0 <= hypot a b.
Proof. apply sqrt_pos. Qed.

Lemma hypot_sqr (a b : R) : hypot a b * hypot a b = a * a + b * b.
Proof. unfold hypot. apply sqrt_sqrt. nra. Qed.

Lemma hypot_eq_0 (a b : R) : hypot a b = 0 -> a = 0 /\ b = 0.
Proof.
  intros H. pose proof (hypot_sqr a b) as Hs. rewrite H in Hs.
  split; nra.
Qed.

Lemma hypot_scale (a b k : R) : hypot (a * k) (b * k) = Rabs k * hypot a b.
Proof.
  unfold hypot.
  replace (a * k * (a * k) + b * k * (b * k)) with (Rsqr k * (a * a + b * b))
    by (unfold Rsqr; ring).
  rewrite sqrt_mult_alt by apply Rle_0_sqr.
  now rewrite sqrt_Rsqr_abs.
Qed.

(** ** Vectors *)

Lemma point_eq (p q : Point) : p.(x) = q.(x) -> p.(y) = q.(y) -> p = q.
Proof. destruct p, q; simpl; intros -> ->; reflexivity. Qed.

Lemma len_nonneg (v : Point) : 0 <= len v.
Proof. apply hypot_nonneg. Qed.

Lemma len_eq_0 (v : Point) : len v = 0 <-> v = zero.
Proof.
  split.
  - intros H. apply hypot_eq_0 in H as [Hx Hy]. now apply point_eq.
  - intros ->. unfold len, hypot, zero; simpl.
    replace (0 * 0 + 0 * 0) with 0 by ring. apply sqrt_0.
Qed.

Lemma len_pos (v : Point) : v <> zero -> 0 < len v.
Proof.
  intros Hv. destruct (len_nonneg v) as [H | H]; [exact H |].
  exfalso. apply Hv. now apply len_eq_0.
Qed.

Lemma norm_zero : norm zero = zero.
Proof.
  unfold norm. destruct (Req_dec_T (len zero) 0) as [_ | Hn].
  - apply point_eq; simpl; field.
  - exfalso. apply Hn. now apply len_eq_0.
Qed.

Lemma norm_nonzero (v : Point) :
  v <> zero -> norm v = {| x := v.(x) / len v; y := v.(y) / len v |}.
Proof.
  intros Hv. unfold norm. destruct (Req_dec_T (len v) 0) as [H0 | _].
  - exfalso. apply Hv. now apply len_eq_0.
  - reflexivity.
Qed.

Lemma norm_as_mul (v : Point) : v <> zero -> norm v = mul v (/ len v).
Proof. intros Hv. now rewrite norm_nonzero. Qed.

Lemma len_mul (v : Point) (k : R) : len (mul v k) = Rabs k * len v.
Proof. unfold len, mul; simpl. apply hypot_scale. Qed.

Lemma len_norm (v : Point) : v <> zero -> len (norm v) = 1.
Proof.
  intros Hv. pose proof (len_pos v Hv) as Hl.
  rewrite norm_as_mul, len_mul by assumption.
  rewrite Rabs_pos_eq by (left; now apply Rinv_0_lt_compat).
  field. lra.
Qed.

Lemma sub_eq_zero (a b : Point) : sub a b = zero <-> a = b.
Proof.
  split.
  - intros H. apply point_eq.
    + apply (f_equal x) in H. simpl in H. lra.
    + apply (f_equal y) in H. simpl in H. lra.
  - intros ->. apply point_eq; simpl; ring.
Qed.

Lemma dist_len (a b : Point) : dist a b = len (sub a b).
Proof. reflexivity. Qed.

(** ** Ghost ball *)

Lemma ghost_offset (object pk : Point) :
  sub (ghostBallForPocket object pk) object
  = mul (norm (sub object pk)) (2 * BALL_R).
Proof. unfold ghostBallForPocket. apply point_eq; simpl; ring. Qed.

Lemma ghost_from_pocket (object pk : Point) :
  object <> pk ->
  sub (ghostBallForPocket object pk) pk
  = mul (sub object pk) (1 + 2 * BALL_R / dist object pk).
Proof.
  intros Hne.
  assert (Hv : sub object pk <> zero) by (now rewrite sub_eq_zero).
  pose proof (len_pos _ Hv) as Hl.
  unfold ghostBallForPocket. rewrite norm_as_mul by assumption.
  rewrite dist_len. apply point_eq; simpl; field; lra.
Qed.

(** C1. For distinct object ball and pocket the ghost ball is
    [object + normalize(object - pocket) * 2r]; it lies on the ray from the
    pocket through the object, at distance exactly [2r = 24] from the
    object, and its distance to the pocket is that of the object plus
    [2r], hence strictly larger. *)
Theorem ghost_ball_beyond_object (object pk : Point) :
  object <> pk ->
  let ghost := ghostBallForPocket object pk in
  ghost = add object (mul (norm (sub object pk)) (2 * BALL_R))
  /\ beyond_on_ray pk object ghost
  /\ dist ghost object = 2 * BALL_R
  /\ 2 * BALL_R = 24
  /\ dist ghost pk = dist object pk + 2 * BALL_R
  /\ dist object pk < dist ghost pk.
Proof.
  intros Hne ghost.
  assert (Hv : sub object pk <> zero) by (now rewrite sub_eq_zero).
  pose proof (len_pos _ Hv) as Hl.
  assert (Hr : 2 * BALL_R = 24) by (unfold BALL_R; lra).
  assert (Hd : dist ghost pk = dist object pk + 2 * BALL_R).
  { rewrite (dist_len ghost). unfold ghost.
    rewrite ghost_from_pocket, len_mul by assumption.
    rewrite dist_len.
    assert (0 < 24 / len (sub object pk)) by (apply Rdiv_lt_0_compat; lra).
    rewrite Hr, Rabs_pos_eq by lra. field. lra. }
  split; [reflexivity |]. split; [| split; [| split; [exact Hr | split]]].
  - exists (1 + 2 * BALL_R / dist object pk). split.
    + rewrite Hr, dist_len.
      assert (0 < 24 / len (sub object pk)) by (apply Rdiv_lt_0_compat; lra).
      lra.
    + pose proof (ghost_from_pocket object pk Hne) as Hg. fold ghost in Hg.
      rewrite <- Hg. apply point_eq; simpl; ring.
  - rewrite (dist_len ghost). unfold ghost.
    rewrite ghost_offset, len_mul, len_norm by assumption.
    rewrite Hr, Rabs_pos_eq by lra. ring.
  - exact Hd.
  - rewrite Hd, Hr. lra.
Qed.

(** The instance named by the specification: object ball at (500,250),
    pocket BR at (1000,500). *)
Lemma ghost_ball_beyond_object_BR :
  {| x := 500; y := 250 |} <> {| x := 1000; y := 500 |}
  /\ let object := {| x := 500; y := 250 |} in
     let pk := {| x := TABLE_W; y := TABLE_H |} in
     let ghost := ghostBallForPocket object pk in
     ghost = add object (mul (norm (sub object pk)) (2 * BALL_R))
     /\ beyond_on_ray pk object ghost
     /\ dist ghost object = 2 * BALL_R
     /\ 2 * BALL_R = 24
     /\ dist ghost pk = dist object pk + 2 * BALL_R
     /\ dist object pk < dist ghost pk.
Proof.
  assert (Hne : {| x := 500; y := 250 |} <> {| x := 1000; y := 500 |}).
  { intros H. apply (f_equal x) in H. simpl in H. lra. }
  split; [exact Hne |].
  unfold TABLE_W, TABLE_H.
  exact (ghost_ball_beyond_object {| x := 500; y := 250 |}
           {| x := 1000; y := 500 |} Hne).
Defined.

(** ** Normalisation of the zero vector *)

(** C5, as stated, fails: the zero vector has length 0 and its
    normalisation is again the zero vector, whose length is 0, not 1. *)
Lemma norm_zero_not_unit :
  ~ (forall v : Point, len v = 0 -> len (norm v) = 1).
Proof.
  intros H. specialize (H zero).
  assert (H0 : len zero = 0) by (now apply len_eq_0).
  specialize (H H0). rewrite norm_zero, H0 in H. lra.
Qed.

(** C5, amended. A vector of length zero is divided by 1 instead of by its
    length, so [norm] returns it unchanged: the result is the zero vector
    (of length 0), with no division by zero. *)
Theorem norm_zero_length (v : Point) :
  len v = 0 -> norm v = v /\ norm v = zero /\ len (norm v) = 0.
Proof.
  intros H. apply len_eq_0 in H. subst v. rewrite norm_zero.
  repeat split. now apply len_eq_0.
Qed.

(** The origin itself: its normalisation is the origin. *)
Lemma norm_zero_length_at_origin :
  len {| x := 0; y := 0 |} = 0
  /\ norm {| x := 0; y := 0 |} = {| x := 0; y := 0 |}
  /\ norm {| x := 0; y := 0 |} = zero
  /\ len (norm {| x := 0; y := 0 |}) = 0.
Proof.
  assert (H : len {| x := 0; y := 0 |} = 0).
  { unfold len, hypot; simpl. replace (0 * 0 + 0 * 0) with 0 by ring.
    apply sqrt_0. }
  split; [exact H |].
  exact (norm_zero_length {| x := 0; y := 0 |} H).
Defined.

(** ** Reflection *)

Lemma len_edgeNormal (e : RailEdge) : len (edgeNormal e) = 1.
Proof.
  destruct e; unfold len, hypot; simpl.
  all: match goal with
       | |- sqrt ?a = 1 => replace a with 1 by ring
       end; apply sqrt_1.
Qed.

Lemma norm_edgeNormal (e : RailEdge) : norm (edgeNormal e) = edgeNormal e.
Proof.
  unfold norm. rewrite len_edgeNormal.
  destruct (Req_dec_T 1 0) as [H | _]; [lra |].
  apply point_eq; simpl; field.
Qed.

(** Reflection negates the component along the (normalised) normal. *)
Lemma reflect_flips_normal (v n : Point) :
  n <> zero -> dot (reflect v n) (norm n) = - dot v (norm n).
Proof.
  intros Hn. pose proof (len_norm n Hn) as Hu.
  pose proof (hypot_sqr (x (norm n)) (y (norm n))) as Hs.
  fold (len (norm n)) in Hs. rewrite Hu in Hs.
  unfold reflect. set (nn := norm n) in *.
  transitivity (dot v nn - 2 * dot v nn * (x nn * x nn + y nn * y nn)).
  - unfold dot; simpl; ring.
  - rewrite <- Hs. ring.
Qed.

(** C8. [reflect v n] is [v - 2 (v . n^) n^] with [n^ = normalize n] (a
    unit vector), for every [v] and nonzero [n]; with the normal [(0,1)]
    of the top edge the vector [(1,-1)] reflects to exactly [(1,1)]. *)
Theorem reflect_formula (v n : Point) :
  n <> zero ->
  reflect v n = sub v (mul (norm n) (2 * dot v (norm n)))
  /\ x (reflect v n) = x v - 2 * dot v (norm n) * x (norm n)
  /\ y (reflect v n) = y v - 2 * dot v (norm n) * y (norm n)
  /\ len (norm n) = 1
  /\ edgeNormal top = {| x := 0; y := 1 |}
  /\ reflect {| x := 1; y := -1 |} (edgeNormal top) = {| x := 1; y := 1 |}.
Proof.
  intros Hn. split; [reflexivity |].
  split; [unfold reflect; simpl; ring |].
  split; [unfold reflect; simpl; ring |].
  split; [now apply len_norm |].
  split; [reflexivity |].
  unfold reflect. rewrite norm_edgeNormal.
  apply point_eq; unfold dot; simpl; ring.
Qed.

(** The formula at the top edge's normal and the incoming vector (1,-1). *)
Lemma reflect_formula_top :
  {| x := 0; y := 1 |} <> zero
  /\ let v := {| x := 1; y := -1 |} in
     let n := {| x := 0; y := 1 |} in
     reflect v n = sub v (mul (norm n) (2 * dot v (norm n)))
     /\ x (reflect v n) = x v - 2 * dot v (norm n) * x (norm n)
     /\ y (reflect v n) = y v - 2 * dot v (norm n) * y (norm n)
     /\ len (norm n) = 1
     /\ edgeNormal top = {| x := 0; y := 1 |}
     /\ reflect {| x := 1; y := -1 |} (edgeNormal top) = {| x := 1; y := 1 |}.
Proof.
  assert (Hn : {| x := 0; y := 1 |} <> zero).
  { intros H. apply (f_equal y) in H. simpl in H. lra. }
  split; [exact Hn |].
  exact (reflect_formula {| x := 1; y := -1 |} {| x := 0; y := 1 |} Hn).
Defined.

(** ** Angles against the zero vector *)

Lemma toDeg_right_angle : toDeg (PI / 2) = 90.
Proof. unfold toDeg. field. apply PI_neq0. Qed.

Lemma dot_zero_l (v : Point) : dot zero v = 0.
Proof. unfold dot; simpl; ring. Qed.

Lemma dot_zero_r (v : Point) : dot v zero = 0.
Proof. unfold dot; simpl; ring. Qed.

Lemma clamp_0_unit : clamp 0 (-1) 1 = 0.
Proof. apply clamp_inside. lra. Qed.

Lemma angleBetween_zero_l (v : Point) : angleBetween zero v = PI / 2.
Proof.
  unfold angleBetween. rewrite norm_zero, dot_zero_l, clamp_0_unit.
  apply acos_0.
Qed.

Lemma angleBetween_zero_r (v : Point) : angleBetween v zero = PI / 2.
Proof.
  unfold angleBetween. rewrite norm_zero, dot_zero_r, clamp_0_unit.
  apply acos_0.
Qed.

Lemma sub_self (a : Point) : sub a a = zero.
Proof. now apply sub_eq_zero. Qed.

(** ** Evaluating the real-number tests on concrete inputs *)

Ltac no_test_inside t :=
  lazymatch t with
  | context [Rle_dec _ _] => fail
  | context [Req_dec_T _ _] => fail
  | _ => idtac
  end.

(** Decide the innermost comparisons first; branches that contradict the
    arithmetic of the context are closed on the spot. *)
Ltac real_cases :=
  repeat match goal with
         | |- context [Rle_dec ?a ?b] =>
             no_test_inside a; no_test_inside b;
             destruct (Rle_dec a b); try (exfalso; lra)
         | |- context [Req_dec_T ?a ?b] =>
             no_test_inside a; no_test_inside b;
             destruct (Req_dec_T a b); try (exfalso; lra)
         end.

Ltac unfold_consts :=
  unfold TABLE_W, TABLE_H, BALL_R, CUSHION in *.

Lemma clampToRail_default :
  clampToRail defaultRailPoint = {| point := {| x := 700; y := 0 |}; edge := top |}.
Proof.
  unfold clampToRail, defaultRailPoint, num_eq, clamp, Rmin, Rmax; simpl.
  unfold_consts. real_cases; f_equal; apply point_eq; simpl; lra.
Qed.

(** C10. The angle between the zero vector and any vector is [PI/2],
    because [norm] maps the zero vector to itself, the dot product is then
    0 and [acos 0 = PI/2].  Hence the cut angle reported by [pocketData] is
    90 degrees when the cue ball or the selected pocket coincides with the
    object ball, and the mismatch angle reported by [railData] is 90
    degrees when the object ball sits on the clamped rail point. *)
Theorem zero_vector_angle (v : Point) (s : State) (pk : Pocket) :
  norm zero = zero
  /\ angleBetween zero v = PI / 2
  /\ toDeg (angleBetween zero v) = 90
  /\ (selectedPocket s = Some pk ->
      cue s = obj s \/ at_point pk = obj s ->
      exists d, pocketData s = Some d /\ pd_cutAngleDeg d = 90)
  /\ (obj s = rd_rp (railData s) -> rd_mismatchDeg (railData s) = 90).
Proof.
  split; [apply norm_zero |].
  split; [apply angleBetween_zero_l |].
  split; [rewrite angleBetween_zero_l; apply toDeg_right_angle |].
  split.
  - intros Hsel Hco. unfold pocketData. rewrite Hsel.
    eexists; split; [reflexivity |]. simpl.
    destruct Hco as [Hc | Hp].
    + rewrite Hc, sub_self, angleBetween_zero_r. apply toDeg_right_angle.
    + rewrite Hp, sub_self, angleBetween_zero_l. apply toDeg_right_angle.
  - intros Hon. unfold railData, railDataFor in *. simpl in *.
    rewrite Hon at 1. rewrite sub_self, angleBetween_zero_r.
    apply toDeg_right_angle.
Qed.

(** Cue ball and object ball both on the clamped rail point (700,0). *)
Lemma zero_vector_angle_on_rail :
  let s := mkState pocket {| x := 700; y := 0 |} {| x := 700; y := 0 |}
             "BR" defaultRailPoint T_none in
  let pk := mkPocket "BR" {| x := TABLE_W; y := TABLE_H |} in
  let v := {| x := 3; y := 4 |} in
  (selectedPocket s = Some pk /\ (cue s = obj s \/ at_point pk = obj s)
   /\ obj s = rd_rp (railData s))
  /\ norm zero = zero
  /\ angleBetween zero v = PI / 2
  /\ toDeg (angleBetween zero v) = 90
  /\ (exists d, pocketData s = Some d /\ pd_cutAngleDeg d = 90)
  /\ rd_mismatchDeg (railData s) = 90.
Proof.
  intros s pk v.
  assert (Hsel : selectedPocket s = Some pk) by reflexivity.
  assert (Hco : cue s = obj s \/ at_point pk = obj s) by (left; reflexivity).
  assert (Hon : obj s = rd_rp (railData s)).
  { unfold railData, railDataFor; simpl. now rewrite clampToRail_default. }
  destruct (zero_vector_angle v s pk) as (H1 & H2 & H3 & H4 & H5).
  split; [now repeat split |].
  split; [exact H1 |]. split; [exact H2 |]. split; [exact H3 |].
  split; [exact (H4 Hsel Hco) | exact (H5 Hon)].
Defined.

(** ** Clamping to the nearest rail *)

Lemma min4_spec (a b c d : R) :
  let m := Rmin (Rmin (Rmin a b) c) d in
  (m <= a /\ m <= b /\ m <= c /\ m <= d) /\ (m = a \/ m = b \/ m = c \/ m = d).
Proof.
  intros m. unfold m, Rmin. real_cases; (split; [lra |]).
  all: first [ left; lra | right; left; lra
             | right; right; left; lra | right; right; right; lra ].
Qed.

Lemma project_on_edge_on_edge (p : Point) (e : RailEdge) :
  on_edge (project_on_edge p e) e.
Proof.
  destruct e; simpl; (split; [reflexivity |]);
    apply clamp_bounds; unfold_consts; lra.
Qed.

(** What the code does at every point: the first edge, in the order top,
    bottom, left, right, whose signed offset equals the minimum. *)
Lemma clampToRail_first_minimal_offset (p : Point) :
  first_minimal (edge_offset p) (edge (clampToRail p))
  /\ point (clampToRail p) = project_on_edge p (edge (clampToRail p)).
Proof.
  unfold clampToRail.
  destruct (min4_spec (y p) (TABLE_H - y p) (x p) (TABLE_W - x p))
    as [(Ht & Hb & Hl & Hr) Hm].
  set (m := Rmin (Rmin (Rmin (y p) (TABLE_H - y p)) (x p)) (TABLE_W - x p)) in *.
  clearbody m.
  destruct (num_eq m (y p)) eqn:E1;
    [| destruct (num_eq m (TABLE_H - y p)) eqn:E2;
       [| destruct (num_eq m (x p)) eqn:E3 ] ];
    simpl; (split; [| reflexivity]).
  all: repeat match goal with
              | H : num_eq _ _ = true |- _ => apply num_eq_true in H
              | H : num_eq _ _ = false |- _ => apply num_eq_false in H
              end.
  all: assert (E4 : m <> y p -> m <> TABLE_H - y p -> m <> x p ->
                    m = TABLE_W - x p)
    by (intros N1 N2 N3; destruct Hm as [Hd | [Hd | [Hd | Hd]]];
        [contradiction | contradiction | contradiction | exact Hd]).
  4: specialize (E4 E1 E2 E3).
  all: split; intros e'; destruct e'; simpl; try lra; try lia; intros He.
  all: exfalso;
    match goal with
    | Hn : _ <> _ |- _ => apply Hn; lra
    end.
Qed.

Lemma edge_offset_distance (p : Point) (e : RailEdge) :
  in_table p -> edge_offset p e = edge_distance p e.
Proof.
  intros [Hx Hy]. destruct e; simpl.
  - rewrite Rabs_pos_eq; lra.
  - rewrite Rabs_left1; lra.
  - rewrite Rabs_pos_eq; lra.
  - rewrite Rabs_left1; lra.
Qed.

(** C3, as stated, fails outside the table.  At (2000,-10) the line
    [y = 0] is at distance 10 and the line [x = W] at distance 1000, yet
    the code answers with the right edge: it compares the signed offsets
    [-10, 510, 2000, -1000] and the smallest is that of the right edge. *)
Lemma clampToRail_not_nearest_outside :
  let p := {| x := 2000; y := -10 |} in
  clampToRail p = {| point := {| x := 1000; y := 0 |}; edge := right |}
  /\ edge_distance p top = 10
  /\ edge_distance p right = 1000
  /\ ~ first_minimal (edge_distance p) (edge (clampToRail p)).
Proof.
  intros p.
  assert (Hc : clampToRail p
               = {| point := {| x := 1000; y := 0 |}; edge := right |}).
  { unfold clampToRail, p, num_eq, clamp, Rmin, Rmax; simpl.
    unfold_consts. real_cases; f_equal; apply point_eq; simpl; lra. }
  assert (Ht : edge_distance p top = 10).
  { simpl. rewrite Rabs_left1; lra. }
  assert (Hr : edge_distance p right = 1000).
  { simpl. unfold_consts. rewrite Rabs_pos_eq; lra. }
  repeat split; try assumption.
  rewrite Hc; simpl edge. intros [Hmin _].
  specialize (Hmin top). rewrite Ht, Hr in Hmin. lra.
Qed.

(** C3, amended.  For every point [p], [clampToRail] compares the four
    signed offsets [y], [H - y], [x], [W - x] of [p] from the edges,
    selects the first edge in the order top, bottom, left, right whose
    offset is minimal, and returns [p] projected onto that edge, the
    coordinate along the edge clamped to the extent of the edge, together
    with the edge.  For [p] in the table rectangle the offsets are the
    distances to the edges, and the selected edge is the first one at
    minimum distance. *)
Theorem clampToRail_nearest (p : Point) :
  let r := clampToRail p in
  first_minimal (edge_offset p) (edge r)
  /\ point r = project_on_edge p (edge r)
  /\ on_edge (point r) (edge r)
  /\ (in_table p ->
      (forall e, edge_offset p e = edge_distance p e)
      /\ first_minimal (edge_distance p) (edge r)).
Proof.
  intros r. destruct (clampToRail_first_minimal_offset p) as [Hfirst Hpt].
  fold r in Hfirst, Hpt.
  split; [exact Hfirst |]. split; [exact Hpt |].
  split; [rewrite Hpt; apply project_on_edge_on_edge |].
  intros Hin.
  assert (Heq : forall e, edge_offset p e = edge_distance p e)
    by (intros e; now apply edge_offset_distance).
  split; [exact Heq |].
  destruct Hfirst as [Hmin Htie]. split; intros e'.
  - rewrite <- !Heq. apply Hmin.
  - rewrite <- !Heq. apply Htie.
Qed.

(** The default rail marker (700,10) snaps to the top edge. *)
Lemma clampToRail_nearest_default :
  let p := {| x := 700; y := 10 |} in
  let r := clampToRail p in
  in_table p
  /\ first_minimal (edge_offset p) (edge r)
  /\ point r = project_on_edge p (edge r)
  /\ on_edge (point r) (edge r)
  /\ (forall e, edge_offset p e = edge_distance p e)
  /\ first_minimal (edge_distance p) (edge r).
Proof.
  intros p r.
  assert (Hin : in_table p) by (unfold in_table, p; simpl; unfold_consts; lra).
  destruct (clampToRail_nearest p) as (H1 & H2 & H3 & H4).
  destruct (H4 Hin) as [H5 H6].
  repeat split; try assumption; try apply Hin; try apply H1; try apply H6.
Defined.

(** ** Hit tests *)

Lemma hypot_le (a b r : R) : 0 <= r -> a * a + b * b <= r * r -> hypot a b <= r.
Proof.
  intros Hr H. unfold hypot. rewrite <- (sqrt_square r Hr).
  now apply sqrt_le_1_alt.
Qed.

Lemma hypot_gt (a b r : R) : 0 <= r -> r * r < a * a + b * b -> r < hypot a b.
Proof.
  intros Hr H. unfold hypot. rewrite <- (sqrt_square r Hr).
  apply sqrt_lt_1_alt. split; [nra | exact H].
Qed.

Lemma isInsideCircle_true (p c : Point) (r : R) :
  isInsideCircle p c r = true <-> dist p c <= r.
Proof. apply num_le_true. Qed.

Lemma isInsideCircle_false (p c : Point) (r : R) :
  isInsideCircle p c r = false <-> ~ dist p c <= r.
Proof.
  unfold isInsideCircle. rewrite num_le_false. split; intros; lra.
Qed.

(** The [for ... of] loop with an early [return]: the first match. *)
Lemma find_first {A : Type} (f : A -> bool) (l1 : list A) (a : A) (l2 : list A) :
  (forall q, In q l1 -> f q = false) -> f a = true ->
  find f (l1 ++ a :: l2) = Some a.
Proof.
  induction l1 as [| b l1 IH]; intros Hmiss Ha; simpl.
  - now rewrite Ha.
  - rewrite (Hmiss b) by (now left). apply IH; [| exact Ha].
    intros q Hq. apply Hmiss. now right.
Qed.

Lemma find_none_iff {A : Type} (f : A -> bool) (l : list A) :
  find f l = None <-> forall q, In q l -> f q = false.
Proof.
  split; [apply find_none |].
  induction l as [| b l IH]; intros H; simpl; [reflexivity |].
  rewrite (H b) by (now left). apply IH. intros q Hq. apply H. now right.
Qed.

(** ** Clamping to the interior *)

Lemma clampPointToInner_in_interior (p : Point) : in_interior (clampPointToInner p).
Proof.
  unfold in_interior, clampPointToInner; simpl.
  split; apply clamp_bounds; unfold_consts; lra.
Qed.

Lemma defaultCue_value : defaultCue = {| x := 250; y := 350 |}.
Proof. apply point_eq; simpl; unfold_consts; lra. Qed.

Lemma defaultObj_value : defaultObj = {| x := 600; y := 200 |}.
Proof. apply point_eq; simpl; unfold_consts; lra. Qed.

Lemma defaultRailPoint_value : defaultRailPoint = {| x := 700; y := 10 |}.
Proof. apply point_eq; simpl; unfold_consts; lra. Qed.

Lemma defaultCue_in_interior : in_interior defaultCue.
Proof. rewrite defaultCue_value. unfold in_interior; simpl; unfold_consts; lra. Qed.

Lemma defaultObj_in_interior : in_interior defaultObj.
Proof. rewrite defaultObj_value. unfold in_interior; simpl; unfold_consts; lra. Qed.

(** ** The drag controller *)

Section HandlerProperties.

Variable isCoarse : bool.

Ltac destruct_find :=
  match goal with
  | |- context [find ?f pockets] => destruct (find f pockets)
  end.

Lemma onPointerDown_frame (p : Point) (s : State) :
  mode (onPointerDown isCoarse p s) = mode s
  /\ cue (onPointerDown isCoarse p s) = cue s
  /\ obj (onPointerDown isCoarse p s) = obj s
  /\ railPoint (onPointerDown isCoarse p s) = railPoint s.
Proof.
  unfold onPointerDown.
  destruct_find; [now repeat split |].
  repeat match goal with
         | |- context [if ?b then _ else _] => destruct b
         end; now repeat split.
Qed.

Lemma onPointerMove_idle (p : Point) (s : State) :
  target s = T_none -> onPointerMove isCoarse p s = s.
Proof. intros H. unfold onPointerMove. now rewrite H. Qed.

Lemma onPointerMove_interior (p : Point) (s : State) :
  in_interior (cue s) /\ in_interior (obj s) ->
  in_interior (cue (onPointerMove isCoarse p s)) /\ in_interior (obj (onPointerMove isCoarse p s)).
Proof.
  intros [Hc Ho]. unfold onPointerMove.
  destruct (target s); try destruct_find; simpl; try (split; assumption).
  - split; [apply clampPointToInner_in_interior | assumption].
  - split; [assumption | apply clampPointToInner_in_interior].
Qed.

Lemma step_interior (s : State) (e : Event) :
  in_interior (cue s) /\ in_interior (obj s) ->
  in_interior (cue (step isCoarse s e)) /\ in_interior (obj (step isCoarse s e)).
Proof.
  intros H. destruct e as [p | p | | | m]; simpl.
  - destruct (onPointerDown_frame p s) as (_ & -> & -> & _). exact H.
  - now apply onPointerMove_interior.
  - exact H.
  - split; [apply defaultCue_in_interior | apply defaultObj_in_interior].
  - exact H.
Qed.

Lemma run_app (s : State) (evs1 evs2 : list Event) :
  run isCoarse s (evs1 ++ evs2) = run isCoarse (run isCoarse s evs1) evs2.
Proof. apply fold_left_app. Qed.

Lemma reachable_run (evs : list Event) (s : State) :
  reachable isCoarse s -> reachable isCoarse (run isCoarse s evs).
Proof.
  revert s. induction evs as [| e evs IH]; intros s Hs; simpl; [exact Hs |].
  apply IH. now constructor.
Qed.

Lemma reachable_iff_run (s : State) :
  reachable isCoarse s <-> exists evs, s = run isCoarse initialState evs.
Proof.
  split.
  - induction 1 as [| s e _ [evs ->]].
    + now exists [].
    + exists (evs ++ [e]). now rewrite run_app.
  - intros [evs ->]. apply reachable_run. constructor.
Qed.

(** C4. In every state reachable from the initial state by pointer-down,
    pointer-move, pointer-up, reset (and mode changes), the cue ball and
    the object ball satisfy [r <= x <= W - r] and [r <= y <= H - r]. *)
Theorem balls_stay_in_interior (s : State) :
  reachable isCoarse s ->
  (BALL_R <= x (cue s) <= TABLE_W - BALL_R
   /\ BALL_R <= y (cue s) <= TABLE_H - BALL_R)
  /\ (BALL_R <= x (obj s) <= TABLE_W - BALL_R
      /\ BALL_R <= y (obj s) <= TABLE_H - BALL_R)
  /\ (TABLE_W = 1000 /\ TABLE_H = 500 /\ BALL_R = 12).
Proof.
  intros Hr.
  assert (H : in_interior (cue s) /\ in_interior (obj s)).
  { induction Hr as [| s e _ IH].
    - split; [apply defaultCue_in_interior | apply defaultObj_in_interior].
    - now apply step_interior. }
  destruct H as [Hc Ho]. split; [exact Hc |]. split; [exact Ho |].
  now repeat split.
Qed.

(** The rail marker never leaves the table rectangle, so [clampToRail] is
    only ever applied to points whose offsets are distances. *)
Lemma railPoint_stays_in_table (s : State) :
  reachable isCoarse s -> in_table (railPoint s).
Proof.
  induction 1 as [| s e _ IH].
  - simpl. rewrite defaultRailPoint_value.
    unfold in_table; simpl; unfold_consts; lra.
  - destruct e as [p | p | | | m]; simpl; try exact IH.
    + destruct (onPointerDown_frame p s) as (_ & _ & _ & ->). exact IH.
    + unfold onPointerMove.
      destruct (target s); try destruct_find; simpl; try exact IH.
      split; apply clamp_bounds; unfold_consts; lra.
    + unfold in_table; simpl; unfold_consts; lra.
Qed.

(** C9. From every state, reset puts the cue ball at (250,350), the object
    ball at (600,200) and the rail marker at (700,10), their initial
    values, and leaves the selected pocket unchanged. *)
Theorem reset_restores_defaults (s : State) :
  cue (reset s) = {| x := 250; y := 350 |}
  /\ obj (reset s) = {| x := 600; y := 200 |}
  /\ railPoint (reset s) = {| x := 700; y := 10 |}
  /\ cue (reset s) = cue initialState
  /\ obj (reset s) = obj initialState
  /\ railPoint (reset s) = railPoint initialState
  /\ selectedPocketId (reset s) = selectedPocketId s
  /\ mode (reset s) = mode s
  /\ target (reset s) = target s.
Proof.
  simpl. fold defaultCue defaultObj defaultRailPoint.
  rewrite defaultCue_value, defaultObj_value, defaultRailPoint_value.
  now repeat split.
Qed.

(** C6. Pointer-down picks its drag target by priority: the first pocket
    of the list whose hit circle contains [p] (the selected pocket is
    updated at once); else the cue ball circle; else the object ball
    circle; else the square around the clamped rail marker; else none.
    Mode, balls and rail marker are left alone. *)
Theorem pointer_down_priority (p : Point) (s : State) :
  let s' := onPointerDown isCoarse p s in
  (mode s' = mode s /\ cue s' = cue s /\ obj s' = obj s
   /\ railPoint s' = railPoint s)
  /\ (forall pk, firstPocketHit isCoarse p pk ->
      target s' = T_pocket (id pk) /\ selectedPocketId s' = id pk)
  /\ (noPocketHit isCoarse p ->
      selectedPocketId s' = selectedPocketId s
      /\ (cueHit isCoarse p s -> target s' = T_cue)
      /\ (~ cueHit isCoarse p s -> objHit isCoarse p s -> target s' = T_obj)
      /\ (~ cueHit isCoarse p s -> ~ objHit isCoarse p s ->
          railHit isCoarse p s -> target s' = T_rail)
      /\ (~ cueHit isCoarse p s -> ~ objHit isCoarse p s ->
          ~ railHit isCoarse p s -> target s' = T_none)).
Proof.
  intros s'. split; [apply onPointerDown_frame |]. split.
  - intros pk (l1 & l2 & Hl & Hmiss & Hhit).
    unfold s', onPointerDown. rewrite Hl.
    rewrite find_first; [now split | |].
    + intros q Hq. apply isInsideCircle_false. now apply Hmiss.
    + now apply isInsideCircle_true.
  - intros Hnone.
    assert (Hf : find (fun pk : Pocket =>
                         isInsideCircle p pk (pocketDownRadius isCoarse)) pockets
                 = None).
    { apply find_none_iff. intros q Hq. apply isInsideCircle_false.
      now apply Hnone. }
    unfold s', onPointerDown. rewrite Hf.
    unfold cueHit, objHit, railHit. cbv zeta.
    change (rd_rp (railData s)) with (point (clampToRail (railPoint s))).
    destruct (isInsideCircle p (cue s) _) eqn:Ec;
      [apply isInsideCircle_true in Ec | apply isInsideCircle_false in Ec];
      [now repeat split |].
    destruct (isInsideCircle p (obj s) _) eqn:Eo;
      [apply isInsideCircle_true in Eo | apply isInsideCircle_false in Eo];
      [now repeat split |].
    destruct (num_le (Rabs (x p - _)) _) eqn:Ex;
      [apply num_le_true in Ex | apply num_le_false in Ex];
      [destruct (num_le (Rabs (y p - _)) _) eqn:Ey;
       [apply num_le_true in Ey | apply num_le_false in Ey] |];
      simpl; repeat split; try reflexivity; try contradiction;
      intros; try contradiction.
    all: match goal with
         | H : ~ (_ /\ _) |- _ => exfalso; apply H; split; assumption
         | H : _ /\ _ |- _ => destruct H; exfalso; lra
         end.
Qed.

(** C7. Pointer-up sets the drag target to none whatever the state, and
    touches nothing else; from then on, as long as no pointer-down
    arrives, the target stays none and every pointer-move leaves the whole
    state, hence the cue ball, the object ball, the rail marker and the
    selected pocket, unchanged. *)
Theorem pointer_up_ends_drag (s : State) (evs : list Event) (p : Point) :
  forallb (fun e => negb (is_down e)) evs = true ->
  target (onPointerUp s) = T_none
  /\ (mode (onPointerUp s) = mode s /\ cue (onPointerUp s) = cue s
      /\ obj (onPointerUp s) = obj s
      /\ selectedPocketId (onPointerUp s) = selectedPocketId s
      /\ railPoint (onPointerUp s) = railPoint s)
  /\ onPointerMove isCoarse p (onPointerUp s) = onPointerUp s
  /\ (let s' := run isCoarse (onPointerUp s) evs in
      target s' = T_none
      /\ onPointerMove isCoarse p s' = s'
      /\ cue (step isCoarse s' (PointerMove p)) = cue s'
      /\ obj (step isCoarse s' (PointerMove p)) = obj s'
      /\ railPoint (step isCoarse s' (PointerMove p)) = railPoint s'
      /\ selectedPocketId (step isCoarse s' (PointerMove p))
         = selectedPocketId s').
Proof.
  intros Hev.
  split; [reflexivity |]. split; [now repeat split |].
  split; [now apply onPointerMove_idle |].
  assert (Hidle : forall l s0, forallb (fun e => negb (is_down e)) l = true ->
                               target s0 = T_none ->
                               target (run isCoarse s0 l) = T_none).
  { induction l as [| e l IH]; intros s0 Hl Ht; simpl; [exact Ht |].
    simpl in Hl. apply andb_true_iff in Hl as [He Hl].
    apply IH; [exact Hl |].
    destruct e as [q | q | | | m]; simpl in *;
      [discriminate | now rewrite onPointerMove_idle | reflexivity
      | exact Ht | exact Ht]. }
  intros s'.
  assert (Ht : target s' = T_none) by (now apply Hidle).
  assert (Hm : onPointerMove isCoarse p s' = s') by (now apply onPointerMove_idle).
  split; [exact Ht |]. split; [exact Hm |].
  simpl. rewrite Hm. now repeat split.
Qed.

(** The drag scenario of the specification: once pointer-down has
    grabbed the object ball, a move to [q] followed by pointer-up leaves
    the object ball at [clampPointToInner q]. *)
Lemma drag_object_scenario (p q : Point) (s : State) :
  target (onPointerDown isCoarse p s) = T_obj ->
  let s' := run isCoarse s [PointerDown p; PointerMove q; PointerUp] in
  obj s' = clampPointToInner q /\ cue s' = cue s /\ target s' = T_none.
Proof.
  intros Ht. unfold run. cbn [fold_left step].
  unfold onPointerMove. rewrite Ht. simpl.
  destruct (onPointerDown_frame p s) as (_ & Hc & _ & _).
  now repeat split.
Qed.

End HandlerProperties.

(** ** The properties at concrete gestures (fine pointer) *)

Ltac hit_goal :=
  unfold pocketHit, cueHit, objHit, pocketDownRadius, HIT_SCALE, dist;
  simpl; unfold_consts.

Ltac prove_hit := hit_goal; apply hypot_le; lra.
Ltac prove_miss := hit_goal; apply Rlt_not_le, hypot_gt; lra.

Ltac prove_no_pocket :=
  let q := fresh "q" in
  let Hq := fresh "Hq" in
  intros q Hq; simpl in Hq;
  repeat (destruct Hq as [Hq | Hq]; [subst q; prove_miss |]);
  contradiction.

(** Dragging the object ball far outside the table and releasing it. *)
Lemma balls_stay_in_interior_after_drag :
  let s := run false initialState
             [PointerDown {| x := 600; y := 200 |};
              PointerMove {| x := 2000; y := -50 |};
              PointerUp] in
  reachable false s
  /\ (BALL_R <= x (cue s) <= TABLE_W - BALL_R
      /\ BALL_R <= y (cue s) <= TABLE_H - BALL_R)
  /\ (BALL_R <= x (obj s) <= TABLE_W - BALL_R
      /\ BALL_R <= y (obj s) <= TABLE_H - BALL_R)
  /\ (TABLE_W = 1000 /\ TABLE_H = 500 /\ BALL_R = 12).
Proof.
  intros s.
  assert (Hr : reachable false s) by (apply reachable_run; constructor).
  split; [exact Hr |].
  exact (balls_stay_in_interior false s Hr).
Defined.

(** The five outcomes of a pointer-down on the initial state. *)
Lemma pointer_down_priority_initial :
  let s := initialState in
  let TL := mkPocket "TL" {| x := 0; y := 0 |} in
  let onPocket := {| x := 3; y := 4 |} in
  let onCue := {| x := 255; y := 345 |} in
  let onObj := {| x := 600; y := 200 |} in
  let onMarker := {| x := 700; y := 5 |} in
  let onCloth := {| x := 400; y := 250 |} in
  (firstPocketHit false onPocket TL
   /\ target (onPointerDown false onPocket s) = T_pocket "TL"
   /\ selectedPocketId (onPointerDown false onPocket s) = "TL"%string)
  /\ (noPocketHit false onCue /\ cueHit false onCue s
      /\ target (onPointerDown false onCue s) = T_cue)
  /\ (noPocketHit false onObj /\ ~ cueHit false onObj s /\ objHit false onObj s
      /\ target (onPointerDown false onObj s) = T_obj
      /\ selectedPocketId (onPointerDown false onObj s) = "BR"%string)
  /\ (noPocketHit false onMarker /\ ~ cueHit false onMarker s
      /\ ~ objHit false onMarker s /\ railHit false onMarker s
      /\ target (onPointerDown false onMarker s) = T_rail)
  /\ (noPocketHit false onCloth /\ ~ cueHit false onCloth s
      /\ ~ objHit false onCloth s /\ ~ railHit false onCloth s
      /\ target (onPointerDown false onCloth s) = T_none).
Proof.
  intros s TL onPocket onCue onObj onMarker onCloth.
  assert (Hp : firstPocketHit false onPocket TL).
  { exists [], (tl pockets). split; [reflexivity |].
    split; [intros q [] | prove_hit]. }
  assert (Nc : noPocketHit false onCue) by prove_no_pocket.
  assert (No : noPocketHit false onObj) by prove_no_pocket.
  assert (Nm : noPocketHit false onMarker) by prove_no_pocket.
  assert (Nn : noPocketHit false onCloth) by prove_no_pocket.
  assert (Cc : cueHit false onCue s) by prove_hit.
  assert (Co : ~ cueHit false onObj s) by prove_miss.
  assert (Cm : ~ cueHit false onMarker s) by prove_miss.
  assert (Cn : ~ cueHit false onCloth s) by prove_miss.
  assert (Oo : objHit false onObj s) by prove_hit.
  assert (Om : ~ objHit false onMarker s) by prove_miss.
  assert (On : ~ objHit false onCloth s) by prove_miss.
  assert (Rm : railHit false onMarker s).
  { unfold railHit; simpl. rewrite clampToRail_default; simpl.
    split; apply Rabs_le; lra. }
  assert (Rn : ~ railHit false onCloth s).
  { unfold railHit; simpl. rewrite clampToRail_default; simpl.
    intros [_ H]. pose proof (Rle_abs (250 - 0)). lra. }
  destruct (pointer_down_priority false onPocket s) as (_ & H1 & _).
  destruct (pointer_down_priority false onCue s) as (_ & _ & H2).
  destruct (pointer_down_priority false onObj s) as (_ & _ & H3).
  destruct (pointer_down_priority false onMarker s) as (_ & _ & H4).
  destruct (pointer_down_priority false onCloth s) as (_ & _ & H5).
  destruct (H1 TL Hp) as [H1a H1b].
  destruct (H2 Nc) as (_ & H2a & _).
  destruct (H3 No) as (H3s & _ & H3a & _).
  destruct (H4 Nm) as (_ & _ & _ & H4a & _).
  destruct (H5 Nn) as (_ & _ & _ & _ & H5a).
  split; [exact (conj Hp (conj H1a H1b)) |].
  split; [exact (conj Nc (conj Cc (H2a Cc))) |].
  split; [exact (conj No (conj Co (conj Oo (conj (H3a Co Oo) H3s)))) |].
  split; [exact (conj Nm (conj Cm (conj Om (conj Rm (H4a Cm Om Rm))))) |].
  exact (conj Nn (conj Cn (conj On (conj Rn (H5a Cn On Rn))))).
Defined.

(** Releasing an object-ball drag, then moving, resetting and changing
    mode without pressing again. *)
Lemma pointer_up_ends_drag_after_object_drag :
  let s := setTarget T_obj initialState in
  let evs := [PointerMove {| x := 10; y := 10 |}; PointerUp; Reset; SetMode rail1] in
  let p := {| x := 300; y := 300 |} in
  forallb (fun e => negb (is_down e)) evs = true
  /\ target (onPointerUp s) = T_none
  /\ (mode (onPointerUp s) = mode s /\ cue (onPointerUp s) = cue s
      /\ obj (onPointerUp s) = obj s
      /\ selectedPocketId (onPointerUp s) = selectedPocketId s
      /\ railPoint (onPointerUp s) = railPoint s)
  /\ onPointerMove false p (onPointerUp s) = onPointerUp s
  /\ (let s' := run false (onPointerUp s) evs in
      target s' = T_none
      /\ onPointerMove false p s' = s'
      /\ cue (step false s' (PointerMove p)) = cue s'
      /\ obj (step false s' (PointerMove p)) = obj s'
      /\ railPoint (step false s' (PointerMove p)) = railPoint s'
      /\ selectedPocketId (step false s' (PointerMove p))
         = selectedPocketId s').
Proof.
  intros s evs p.
  assert (Hev : forallb (fun e => negb (is_down e)) evs = true) by reflexivity.
  split; [exact Hev |].
  exact (pointer_up_ends_drag false s evs p Hev).
Defined.

(** * Further properties of the geometry *)

(** ** Clamping *)

Lemma clamp_le_max (v lo hi : R) : clamp v lo hi <= hi.
Proof. unfold clamp. apply Rmin_r. Qed.

Lemma clamp_idem (v lo hi : R) : clamp (clamp v lo hi) lo hi = clamp v lo hi.
Proof. unfold clamp, Rmin, Rmax. real_cases; lra. Qed.

Lemma clamp_mono (v w lo hi : R) : v <= w -> clamp v lo hi <= clamp w lo hi.
Proof. intros H. unfold clamp, Rmin, Rmax. real_cases; lra. Qed.

(** X1. [clamp] never exceeds [max]; when [min <= max] the result lies in
    [[min, max]], values already inside are returned unchanged, and
    clamping twice is clamping once; when the bounds are crossed
    ([max < min]) the result is [max]. *)
Theorem clamp_behaviour (v lo hi : R) :
  clamp v lo hi <= hi
  /\ clamp (clamp v lo hi) lo hi = clamp v lo hi
  /\ (lo <= hi -> lo <= clamp v lo hi <= hi)
  /\ (lo <= v <= hi -> clamp v lo hi = v)
  /\ (hi < lo -> clamp v lo hi = hi).
Proof.
  split; [apply clamp_le_max |]. split; [apply clamp_idem |].
  split; [apply clamp_bounds |]. split; [apply clamp_inside |].
  intros H. unfold clamp, Rmin, Rmax. real_cases; lra.
Qed.

(** [clamp] on an in-range value, and on crossed bounds. *)
Lemma clamp_behaviour_examples :
  (0 <= 1000 /\ 0 <= 250 <= 1000 /\ clamp 250 0 1000 = 250
   /\ 0 <= clamp 250 0 1000 <= 1000)
  /\ (3 < 7 /\ clamp 5 7 3 = 3).
Proof.
  destruct (clamp_behaviour 250 0 1000) as (_ & _ & H3 & H4 & _).
  destruct (clamp_behaviour 5 7 3) as (_ & _ & _ & _ & H5).
  assert (Ha : 0 <= 1000) by lra.
  assert (Hb : 0 <= 250 <= 1000) by lra.
  assert (Hc : 3 < 7) by lra.
  split; [exact (conj Ha (conj Hb (conj (H4 Hb) (H3 Ha)))) |].
  exact (conj Hc (H5 Hc)).
Defined.

Lemma clampPointToInner_fixed (p : Point) :
  in_interior p -> clampPointToInner p = p.
Proof.
  intros [Hx Hy]. unfold clampPointToInner.
  apply point_eq; simpl; now apply clamp_inside.
Qed.

(** X2. [clampPointToInner] always lands in the interior padded by the
    ball radius (hence inside the table), leaves interior points where
    they are, and is idempotent. *)
Theorem clampPointToInner_behaviour (p : Point) :
  in_interior (clampPointToInner p)
  /\ in_table (clampPointToInner p)
  /\ clampPointToInner (clampPointToInner p) = clampPointToInner p
  /\ (in_interior p -> clampPointToInner p = p).
Proof.
  pose proof (clampPointToInner_in_interior p) as Hin.
  split; [exact Hin |]. split.
  - destruct Hin as [Hx Hy]. unfold in_table. unfold_consts. lra.
  - split; [now apply clampPointToInner_fixed |].
    apply clampPointToInner_fixed.
Qed.

(** A point of the interior is not moved. *)
Lemma clampPointToInner_behaviour_inside :
  let p := {| x := 600; y := 200 |} in
  in_interior p
  /\ in_interior (clampPointToInner p)
  /\ in_table (clampPointToInner p)
  /\ clampPointToInner (clampPointToInner p) = clampPointToInner p
  /\ clampPointToInner p = p.
Proof.
  intros p.
  assert (Hin : in_interior p)
    by (unfold in_interior, p; simpl; unfold_consts; lra).
  destruct (clampPointToInner_behaviour p) as (H1 & H2 & H3 & H4).
  exact (conj Hin (conj H1 (conj H2 (conj H3 (H4 Hin))))).
Defined.

(** ** Distances and circles *)

Lemma hypot_opp (a b : R) : hypot (- a) (- b) = hypot a b.
Proof. unfold hypot. f_equal. ring. Qed.

Lemma hypot_le_iff (a b r : R) :
  hypot a b <= r <-> 0 <= r /\ a * a + b * b <= r * r.
Proof.
  split.
  - intros H. pose proof (hypot_nonneg a b) as H0.
    pose proof (hypot_sqr a b) as Hs. split; [lra | nra].
  - intros [Hr H]. now apply hypot_le.
Qed.

Lemma hypot_triangle (a b c d : R) :
  hypot (a + c) (b + d) <= hypot a b + hypot c d.
Proof.
  pose proof (hypot_nonneg a b) as H1. pose proof (hypot_nonneg c d) as H2.
  pose proof (hypot_sqr a b) as S1. pose proof (hypot_sqr c d) as S2.
  assert (Hcs : a * c + b * d <= hypot a b * hypot c d).
  { destruct (Rle_dec (a * c + b * d) 0) as [Hn | Hp]; [nra |].
    apply Rsqr_incr_0_var; [| nra]. unfold Rsqr.
    replace (hypot a b * hypot c d * (hypot a b * hypot c d))
      with ((hypot a b * hypot a b) * (hypot c d * hypot c d)) by ring.
    rewrite S1, S2.
    replace ((a * a + b * b) * (c * c + d * d))
      with ((a * c + b * d) * (a * c + b * d)
            + (a * d - b * c) * (a * d - b * c)) by ring.
    pose proof (Rle_0_sqr (a * d - b * c)) as Hsq. unfold Rsqr in Hsq. lra. }
  apply hypot_le; [lra |].
  replace ((hypot a b + hypot c d) * (hypot a b + hypot c d))
    with (hypot a b * hypot a b + hypot c d * hypot c d
          + 2 * (hypot a b * hypot c d)) by ring.
  rewrite S1, S2. lra.
Qed.

(** X3. [dist] is a metric: nonnegative, zero exactly between equal
    points, symmetric, and it satisfies the triangle inequality. *)
Theorem dist_metric (a b c : Point) :
  0 <= dist a b
  /\ (dist a b = 0 <-> a = b)
  /\ dist a b = dist b a
  /\ dist a c <= dist a b + dist b c.
Proof.
  split; [apply hypot_nonneg |]. split.
  - rewrite dist_len, len_eq_0. apply sub_eq_zero.
  - split.
    + unfold dist; cbv zeta. rewrite <- hypot_opp. f_equal; ring.
    + unfold dist; cbv zeta.
      replace (x a - x c) with ((x a - x b) + (x b - x c)) by ring.
      replace (y a - y c) with ((y a - y b) + (y b - y c)) by ring.
      apply hypot_triangle.
Qed.

(** X4. [isInsideCircle] is the closed disc: it holds exactly when the
    radius is nonnegative and the squared distance is at most the squared
    radius.  A negative radius contains no point, not even the centre. *)
Theorem isInsideCircle_closed_disc (p c : Point) (r : R) :
  (isInsideCircle p c r = true <->
   0 <= r /\ (x p - x c) * (x p - x c) + (y p - y c) * (y p - y c) <= r * r)
  /\ (isInsideCircle c c r = true <-> 0 <= r)
  /\ (r < 0 -> isInsideCircle p c r = false).
Proof.
  assert (H : isInsideCircle p c r = true <->
              0 <= r /\ (x p - x c) * (x p - x c)
                        + (y p - y c) * (y p - y c) <= r * r).
  { rewrite isInsideCircle_true. unfold dist; cbv zeta. apply hypot_le_iff. }
  split; [exact H |]. split.
  - rewrite isInsideCircle_true. unfold dist; cbv zeta.
    rewrite hypot_le_iff. split; [tauto |]. intros Hr. split; nra.
  - intros Hr. apply isInsideCircle_false. pose proof (hypot_nonneg (x p - x c) (y p - y c)).
    unfold dist; cbv zeta. lra.
Qed.

(** A circle of negative radius around the point tested. *)
Lemma isInsideCircle_closed_disc_negative :
  let c := {| x := 5; y := 5 |} in
  -1 < 0 /\ isInsideCircle c c (-1) = false.
Proof.
  intros c. assert (Hr : -1 < 0) by lra.
  destruct (isInsideCircle_closed_disc c c (-1)) as (_ & _ & H).
  exact (conj Hr (H Hr)).
Defined.

(** ** Normalisation *)

Lemma mul_zero (k : R) : mul zero k = zero.
Proof. apply point_eq; simpl; ring. Qed.

Lemma mul_eq_zero (v : Point) (k : R) : k <> 0 -> mul v k = zero -> v = zero.
Proof.
  intros Hk H. apply point_eq; simpl.
  - apply (f_equal x) in H. simpl in H. nra.
  - apply (f_equal y) in H. simpl in H. nra.
Qed.

Lemma norm_scale (v : Point) (k : R) : 0 < k -> norm (mul v k) = norm v.
Proof.
  intros Hk. destruct (Req_dec_T (len v) 0) as [H0 | Hn].
  - apply len_eq_0 in H0. subst v. now rewrite mul_zero.
  - assert (Hv : v <> zero) by (intros ->; apply Hn; now apply len_eq_0).
    assert (Hkv : mul v k <> zero).
    { intros H. apply Hv. apply (mul_eq_zero v k); [lra | exact H]. }
    pose proof (len_pos v Hv) as Hl.
    rewrite (norm_nonzero _ Hkv), (norm_nonzero _ Hv), len_mul.
    rewrite Rabs_pos_eq by lra. apply point_eq; simpl; field; lra.
Qed.

Lemma norm_scale_neg (v : Point) (k : R) :
  k < 0 -> norm (mul v k) = mul (norm v) (-1).
Proof.
  intros Hk. destruct (Req_dec_T (len v) 0) as [H0 | Hn].
  - apply len_eq_0 in H0. subst v. now rewrite mul_zero, norm_zero, mul_zero.
  - assert (Hv : v <> zero) by (intros ->; apply Hn; now apply len_eq_0).
    assert (Hkv : mul v k <> zero).
    { intros H. apply Hv. apply (mul_eq_zero v k); [lra | exact H]. }
    pose proof (len_pos v Hv) as Hl.
    rewrite (norm_nonzero _ Hkv), (norm_nonzero _ Hv), len_mul.
    rewrite Rabs_left by lra. apply point_eq; simpl; field; lra.
Qed.

Lemma norm_idem (v : Point) : norm (norm v) = norm v.
Proof.
  destruct (Req_dec_T (len v) 0) as [H0 | Hn].
  - apply len_eq_0 in H0. subst v. now rewrite !norm_zero.
  - assert (Hv : v <> zero) by (intros ->; apply Hn; now apply len_eq_0).
    pose proof (len_norm v Hv) as Hu.
    set (w := norm v) in *. clearbody w.
    unfold norm. rewrite Hu.
    destruct (Req_dec_T 1 0) as [H | _]; [lra |].
    apply point_eq; simpl; field.
Qed.

Lemma norm_rescale (v : Point) : mul (norm v) (len v) = v.
Proof.
  destruct (Req_dec_T (len v) 0) as [H0 | Hn].
  - rewrite H0. apply len_eq_0 in H0. subst v.
    rewrite norm_zero. apply point_eq; simpl; ring.
  - assert (Hv : v <> zero) by (intros ->; apply Hn; now apply len_eq_0).
    rewrite (norm_nonzero _ Hv). apply point_eq; simpl; field; exact Hn.
Qed.

Lemma dot_norm_self (v : Point) : v <> zero -> dot (norm v) (norm v) = 1.
Proof.
  intros Hv. pose proof (len_norm v Hv) as Hu.
  pose proof (hypot_sqr (x (norm v)) (y (norm v))) as Hs.
  fold (len (norm v)) in Hs. rewrite Hu in Hs. unfold dot. lra.
Qed.

(** X5. [norm] keeps the direction and drops the length: [v] is
    [norm v] scaled by [len v]; a nonzero vector normalises to a unit
    vector; positive rescaling does not change the result, and
    normalising twice changes nothing. *)
Theorem norm_direction (v : Point) (k : R) :
  mul (norm v) (len v) = v
  /\ norm (norm v) = norm v
  /\ (v <> zero -> len (norm v) = 1)
  /\ (0 < k -> norm (mul v k) = norm v).
Proof.
  split; [apply norm_rescale |]. split; [apply norm_idem |].
  split; [apply len_norm | apply norm_scale].
Qed.

(** The vector (3,4), of length 5, and its double. *)
Lemma norm_direction_3_4 :
  let v := {| x := 3; y := 4 |} in
  (v <> zero /\ 0 < 2)
  /\ mul (norm v) (len v) = v
  /\ norm (norm v) = norm v
  /\ len (norm v) = 1
  /\ norm (mul v 2) = norm v.
Proof.
  intros v.
  assert (Hv : v <> zero).
  { intros H. apply (f_equal x) in H. simpl in H. lra. }
  assert (Hk : 0 < 2) by lra.
  destruct (norm_direction v 2) as (H1 & H2 & H3 & H4).
  exact (conj (conj Hv Hk) (conj H1 (conj H2 (conj (H3 Hv) (H4 Hk))))).
Defined.

(** ** Angles

    [acos] is ill-conditioned at 1 and -1: there a rounding error in the
    last bit of its argument moves the angle by about 1e-8.  For aligned
    vectors the properties below are therefore stated on the cosine of
    the angle, that is on the clamped dot product handed to [acos], and
    not on the angle. *)

Lemma dot_comm (a b : Point) : dot a b = dot b a.
Proof. unfold dot. ring. Qed.

Lemma toDeg_bounds (a : R) : 0 <= a <= PI -> 0 <= toDeg a <= 180.
Proof.
  intros [H0 H1]. pose proof PI_RGT_0 as Hpi. unfold toDeg.
  split.
  - apply Rmult_le_pos; [lra |]. left. now apply Rinv_0_lt_compat.
  - apply Rmult_le_reg_r with PI; [exact Hpi |].
    replace (a * 180 / PI * PI) with (a * 180) by (field; lra). lra.
Qed.

Lemma toDeg_back (a : R) : toDeg a * PI / 180 = a.
Proof. unfold toDeg. field. apply PI_neq0. Qed.

Lemma angleBetween_sym (a b : Point) : angleBetween a b = angleBetween b a.
Proof. unfold angleBetween. now rewrite dot_comm. Qed.

Lemma cos_angleBetween (a b : Point) :
  cos (angleBetween a b) = clamp (dot (norm a) (norm b)) (-1) 1.
Proof.
  unfold angleBetween. apply cos_acos. apply clamp_bounds. lra.
Qed.

Lemma dot_norm_scale (a : Point) (k : R) :
  a <> zero -> 0 < k -> dot (norm a) (norm (mul a k)) = 1.
Proof.
  intros Ha Hk. rewrite norm_scale by assumption. now apply dot_norm_self.
Qed.

Lemma dot_norm_scale_neg (a : Point) (k : R) :
  a <> zero -> k < 0 -> dot (norm a) (norm (mul a k)) = -1.
Proof.
  intros Ha Hk. rewrite norm_scale_neg by assumption.
  replace (dot (norm a) (mul (norm a) (-1))) with (- dot (norm a) (norm a))
    by (unfold dot; simpl; ring).
  rewrite dot_norm_self by assumption. ring.
Qed.

Lemma cos_angle_same_direction (a : Point) (k : R) :
  a <> zero -> 0 < k -> cos (angleBetween a (mul a k)) = 1.
Proof.
  intros Ha Hk. rewrite cos_angleBetween, dot_norm_scale by assumption.
  apply clamp_inside. lra.
Qed.

Lemma cos_angle_opposite_direction (a : Point) (k : R) :
  a <> zero -> k < 0 -> cos (angleBetween a (mul a k)) = -1.
Proof.
  intros Ha Hk. rewrite cos_angleBetween, dot_norm_scale_neg by assumption.
  apply clamp_inside. lra.
Qed.

(** X6. The angle computed by [angleBetween] always lies between 0 and
    [PI], so the angles shown in degrees lie between 0 and 180, and it
    does not depend on the order of its arguments. *)
Theorem angleBetween_range (a b : Point) :
  0 <= angleBetween a b <= PI
  /\ 0 <= toDeg (angleBetween a b) <= 180
  /\ angleBetween a b = angleBetween b a.
Proof.
  assert (H : 0 <= angleBetween a b <= PI) by apply acos_bound.
  split; [exact H |]. split; [now apply toDeg_bounds |].
  apply angleBetween_sym.
Qed.

(** X7. The cosine of the angle computed by [angleBetween] is the dot
    product of the normalised arguments, clamped to [[-1, 1]].  For a
    nonzero vector that value is 1 against any positive multiple of the
    vector and -1 against any negative multiple. *)
Theorem aligned_vectors_cosine (a b : Point) (k : R) :
  cos (angleBetween a b) = clamp (dot (norm a) (norm b)) (-1) 1
  /\ (a <> zero -> 0 < k ->
      dot (norm a) (norm (mul a k)) = 1
      /\ cos (angleBetween a (mul a k)) = 1
      /\ dot (norm a) (norm (mul a (- k))) = -1
      /\ cos (angleBetween a (mul a (- k))) = -1).
Proof.
  split; [apply cos_angleBetween |].
  intros Ha Hk.
  split; [now apply dot_norm_scale |].
  split; [now apply cos_angle_same_direction |].
  split; [apply dot_norm_scale_neg; [exact Ha | lra] |].
  apply cos_angle_opposite_direction; [exact Ha | lra].
Qed.

(** The vector (3,4) against its double and against minus its double. *)
Lemma aligned_vectors_cosine_3_4 :
  let a := {| x := 3; y := 4 |} in
  let b := {| x := 0; y := 2 |} in
  (a <> zero /\ 0 < 2)
  /\ cos (angleBetween a b) = clamp (dot (norm a) (norm b)) (-1) 1
  /\ dot (norm a) (norm (mul a 2)) = 1
  /\ cos (angleBetween a (mul a 2)) = 1
  /\ dot (norm a) (norm (mul a (- 2))) = -1
  /\ cos (angleBetween a (mul a (- 2))) = -1.
Proof.
  intros a b.
  assert (Ha : a <> zero).
  { intros H. apply (f_equal x) in H. simpl in H. lra. }
  assert (Hk : 0 < 2) by lra.
  destruct (aligned_vectors_cosine a b 2) as [H1 H2].
  exact (conj (conj Ha Hk) (conj H1 (H2 Ha Hk))).
Defined.

(** ** Cut angle *)

Lemma sub_add_mul (a v : Point) (t : R) : sub (add a (mul v t)) a = mul v t.
Proof. apply point_eq; simpl; ring. Qed.

Lemma sub_swap (a b : Point) : sub a b = mul (sub b a) (-1).
Proof. apply point_eq; simpl; ring. Qed.

Lemma mul_mul (v : Point) (j k : R) : mul (mul v j) k = mul v (j * k).
Proof. apply point_eq; simpl; ring. Qed.

(** X8. The cut angle is measured at the object ball between the
    direction to the pocket and the direction to the cue ball.  With the
    cue ball straight behind the object ball as seen from the pocket (the
    straight-in shot, and in particular with the cue ball on the ghost
    ball), the cosine of the cut angle reported by [pocketData] is -1, the
    cosine of 180 degrees; with the cue ball on the ray from the object
    ball towards the pocket it is 1, the cosine of 0 degrees. *)
Theorem cut_angle_cosine_on_pocket_line (cue0 obj0 : Point) (pk : Pocket) (t : R) :
  obj0 <> at_point pk -> 0 < t ->
  (cue0 = add obj0 (mul (sub obj0 pk) t) ->
   cos (pd_cutAngleDeg (pocketDataFor cue0 obj0 pk) * PI / 180) = -1)
  /\ (cue0 = add obj0 (mul (sub pk obj0) t) ->
      cos (pd_cutAngleDeg (pocketDataFor cue0 obj0 pk) * PI / 180) = 1)
  /\ cos (pd_cutAngleDeg (pocketDataFor (ghostBallForPocket obj0 pk) obj0 pk)
          * PI / 180) = -1.
Proof.
  intros Hne Ht.
  assert (Ha : sub pk obj0 <> zero).
  { rewrite sub_eq_zero. intros H. apply Hne. now symmetry. }
  assert (Hb : sub obj0 pk <> zero) by (now rewrite sub_eq_zero).
  split; [| split].
  - intros ->. unfold pocketDataFor; simpl. rewrite toDeg_back.
    rewrite sub_add_mul, (sub_swap obj0 pk), mul_mul.
    apply cos_angle_opposite_direction; [exact Ha | lra].
  - intros ->. unfold pocketDataFor; simpl. rewrite toDeg_back.
    rewrite sub_add_mul. now apply cos_angle_same_direction.
  - unfold pocketDataFor; simpl. rewrite toDeg_back, ghost_offset.
    rewrite norm_as_mul by assumption. rewrite (sub_swap obj0 pk), !mul_mul.
    pose proof (len_pos _ Hb) as Hl.
    apply cos_angle_opposite_direction; [exact Ha |].
    rewrite <- (sub_swap obj0 pk). unfold BALL_R.
    assert (0 < / len (sub obj0 pk)) by (now apply Rinv_0_lt_compat).
    nra.
Qed.

(** Object ball in the middle of the table, pocket BR, cue ball on the
    line through both, once behind the object ball and once in front. *)
Lemma cut_angle_cosine_on_pocket_line_BR :
  let obj0 := {| x := 500; y := 250 |} in
  let pk := mkPocket "BR" {| x := TABLE_W; y := TABLE_H |} in
  let behind := add obj0 (mul (sub obj0 pk) (1 / 2)) in
  let front := add obj0 (mul (sub pk obj0) (1 / 2)) in
  (obj0 <> at_point pk /\ 0 < 1 / 2)
  /\ cos (pd_cutAngleDeg (pocketDataFor behind obj0 pk) * PI / 180) = -1
  /\ cos (pd_cutAngleDeg (pocketDataFor front obj0 pk) * PI / 180) = 1
  /\ cos (pd_cutAngleDeg (pocketDataFor (ghostBallForPocket obj0 pk) obj0 pk)
          * PI / 180) = -1.
Proof.
  intros obj0 pk behind front.
  assert (Hne : obj0 <> at_point pk).
  { intros H. apply (f_equal x) in H. simpl in H. unfold_consts. lra. }
  assert (Ht : 0 < 1 / 2) by lra.
  destruct (cut_angle_cosine_on_pocket_line behind obj0 pk (1 / 2) Hne Ht)
    as (H1 & _ & H3).
  destruct (cut_angle_cosine_on_pocket_line front obj0 pk (1 / 2) Hne Ht)
    as (_ & H2 & _).
  exact (conj (conj Hne Ht) (conj (H1 eq_refl) (conj (H2 eq_refl) H3))).
Defined.

(** ** Reflection *)

Lemma norm_sqr (n : Point) :
  n <> zero -> x (norm n) * x (norm n) + y (norm n) * y (norm n) = 1.
Proof. intros Hn. apply (dot_norm_self n Hn). Qed.

Lemma reflect_len (v n : Point) : n <> zero -> len (reflect v n) = len v.
Proof.
  intros Hn. pose proof (norm_sqr n Hn) as Hs.
  unfold reflect. set (nn := norm n) in *. clearbody nn.
  unfold len, hypot. f_equal. unfold dot; simpl.
  transitivity (x v * x v + y v * y v
                + 4 * (x v * x nn + y v * y nn) * (x v * x nn + y v * y nn)
                  * (x nn * x nn + y nn * y nn - 1)).
  - ring.
  - rewrite Hs. ring.
Qed.

Lemma reflect_involutive (v n : Point) : n <> zero -> reflect (reflect v n) n = v.
Proof.
  intros Hn. pose proof (reflect_flips_normal v n Hn) as Hf.
  unfold reflect at 1. rewrite Hf. unfold reflect.
  apply point_eq; simpl; ring.
Qed.

Lemma reflect_zero_normal (v : Point) : reflect v zero = v.
Proof.
  unfold reflect. rewrite norm_zero, dot_zero_r.
  apply point_eq; simpl; ring.
Qed.

(** X9. Reflection about a nonzero normal is a mirror: it preserves the
    length of the vector, negates its component along the normal and,
    applied twice, gives the vector back.  About the zero vector nothing
    is reflected: the vector is returned unchanged. *)
Theorem reflect_mirror (v n : Point) :
  reflect v zero = v
  /\ (n <> zero ->
      len (reflect v n) = len v
      /\ dot (reflect v n) (norm n) = - dot v (norm n)
      /\ reflect (reflect v n) n = v).
Proof.
  split; [apply reflect_zero_normal |].
  intros Hn. split; [now apply reflect_len |].
  split; [now apply reflect_flips_normal | now apply reflect_involutive].
Qed.

(** The vector (3,4) mirrored about the diagonal normal (1,1). *)
Lemma reflect_mirror_diagonal :
  let v := {| x := 3; y := 4 |} in
  let n := {| x := 1; y := 1 |} in
  n <> zero
  /\ reflect v zero = v
  /\ len (reflect v n) = len v
  /\ dot (reflect v n) (norm n) = - dot v (norm n)
  /\ reflect (reflect v n) n = v.
Proof.
  intros v n.
  assert (Hn : n <> zero).
  { intros H. apply (f_equal x) in H. simpl in H. lra. }
  destruct (reflect_mirror v n) as [H0 H].
  exact (conj Hn (conj H0 (H Hn))).
Defined.

Lemma reflect_edgeNormal (v : Point) (e : RailEdge) :
  reflect v (edgeNormal e)
  = match e with
    | top | bottom => {| x := x v; y := - y v |}
    | left | right => {| x := - x v; y := y v |}
    end.
Proof.
  unfold reflect. rewrite norm_edgeNormal.
  destruct e; apply point_eq; unfold dot; simpl; ring.
Qed.

(** X10. About the normal of a rail, reflection keeps the component along
    the rail and negates the component across it: the vertical one for
    the top and bottom rails, the horizontal one for the left and right
    rails.  Opposite rails reflect alike. *)
Theorem reflect_on_rail (v : Point) (e : RailEdge) :
  reflect v (edgeNormal e)
  = match e with
    | top | bottom => {| x := x v; y := - y v |}
    | left | right => {| x := - x v; y := y v |}
    end
  /\ reflect v (edgeNormal top) = reflect v (edgeNormal bottom)
  /\ reflect v (edgeNormal left) = reflect v (edgeNormal right)
  /\ len (reflect v (edgeNormal e)) = len v.
Proof.
  split; [apply reflect_edgeNormal |].
  split; [now rewrite !reflect_edgeNormal |].
  split; [now rewrite !reflect_edgeNormal |].
  apply reflect_len. intros H. pose proof (len_edgeNormal e) as Hl.
  rewrite H in Hl. assert (len zero = 0) by (now apply len_eq_0). lra.
Qed.

(** ** One-cushion geometry *)

Lemma edgeNormal_nonzero (e : RailEdge) : edgeNormal e <> zero.
Proof.
  intros H. pose proof (len_edgeNormal e) as Hl. rewrite H in Hl.
  assert (len zero = 0) by (now apply len_eq_0). lra.
Qed.

Lemma clampToRail_far_right :
  clampToRail {| x := 2000; y := -10 |}
  = {| point := {| x := 1000; y := 0 |}; edge := right |}.
Proof.
  unfold clampToRail, num_eq, clamp, Rmin, Rmax; simpl.
  unfold_consts. real_cases; f_equal; apply point_eq; simpl; lra.
Qed.

(** C2, as stated, fails twice.  With the raw marker at (2000,-10) the
    edge the marker is clamped to is the right one, which is not the
    nearest (the line [y = 0] is at distance 10, the line [x = W] at
    distance 1000).  And the value returned is not the angle but the angle
    in degrees: with the object ball on the rail point the angle is
    [PI/2] and the value returned is 90. *)
Lemma railData_not_nearest_nor_radians :
  let marker := {| x := 2000; y := -10 |} in
  let cue0 := {| x := 250; y := 350 |} in
  let obj0 := {| x := 1000; y := 0 |} in
  let rd := railDataFor marker cue0 obj0 in
  let angle := angleBetween
                 (reflect (sub (rd_rp rd) cue0) (edgeNormal (rd_edge rd)))
                 (sub obj0 (rd_rp rd)) in
  rd_rp rd = {| x := 1000; y := 0 |}
  /\ rd_edge rd = right
  /\ ~ first_minimal (edge_distance marker) (rd_edge rd)
  /\ angle = PI / 2
  /\ rd_mismatchDeg rd = 90
  /\ rd_mismatchDeg rd <> angle.
Proof.
  intros marker cue0 obj0 rd angle.
  assert (Hrp : rd_rp rd = {| x := 1000; y := 0 |})
    by (unfold rd, railDataFor, marker; simpl; now rewrite clampToRail_far_right).
  assert (He : rd_edge rd = right)
    by (unfold rd, railDataFor, marker; simpl; now rewrite clampToRail_far_right).
  assert (Ha : angle = PI / 2).
  { unfold angle. rewrite Hrp.
    replace (sub obj0 {| x := 1000; y := 0 |}) with zero
      by (symmetry; now apply sub_eq_zero).
    apply angleBetween_zero_r. }
  assert (Hd : rd_mismatchDeg rd = 90).
  { transitivity (toDeg angle); [reflexivity |].
    rewrite Ha. apply toDeg_right_angle. }
  split; [exact Hrp |]. split; [exact He |]. split; [| split; [exact Ha |]].
  - rewrite He. intros [Hmin _]. specialize (Hmin top).
    simpl in Hmin. unfold_consts.
    rewrite (Rabs_pos_eq (2000 - 1000)), (Rabs_left1 (-10 - 0)) in Hmin; lra.
  - split; [exact Hd |]. rewrite Hd, Ha.
    pose proof PI_4. lra.
Qed.

(** C2, amended.  For every cue, object and raw rail-marker position,
    [railData] first clamps the marker with [clampToRail]: the edge is the
    first one, in the order top, bottom, left, right, of minimum signed
    offset, which is the nearest edge whenever the marker lies in the
    table rectangle, and the rail point is the marker projected onto it.
    Then [incoming = railPoint - cue], the normal is that of the edge, the
    reflected vector is [incoming] with its component across the rail
    negated, [toObj = object - railPoint], and the value returned is the
    angle between the reflected vector and [toObj] in degrees: an angle
    between 0 and [PI] whose cosine is the clamped dot product of the two
    normalised vectors, times [180 / PI]. *)
Theorem railData_mismatch (marker cue0 obj0 : Point) :
  let rd := railDataFor marker cue0 obj0 in
  let rad := rd_mismatchDeg rd * PI / 180 in
  (first_minimal (edge_offset marker) (rd_edge rd)
   /\ rd_rp rd = project_on_edge marker (rd_edge rd)
   /\ on_edge (rd_rp rd) (rd_edge rd))
  /\ (in_table marker -> first_minimal (edge_distance marker) (rd_edge rd))
  /\ rd_incoming rd = sub (rd_rp rd) cue0
  /\ rd_normal rd = edgeNormal (rd_edge rd)
  /\ rd_reflected rd = reflect (rd_incoming rd) (rd_normal rd)
  /\ rd_reflected rd
     = match rd_edge rd with
       | top | bottom =>
           {| x := x (rd_incoming rd); y := - y (rd_incoming rd) |}
       | left | right =>
           {| x := - x (rd_incoming rd); y := y (rd_incoming rd) |}
       end
  /\ rd_toObj rd = sub obj0 (rd_rp rd)
  /\ rd_mismatchDeg rd
     = angleBetween
         (reflect (sub (rd_rp rd) cue0) (edgeNormal (rd_edge rd)))
         (sub obj0 (rd_rp rd)) * 180 / PI
  /\ rad = angleBetween (rd_reflected rd) (rd_toObj rd)
  /\ 0 <= rad <= PI
  /\ cos rad = clamp (dot (norm (rd_reflected rd)) (norm (rd_toObj rd))) (-1) 1
  /\ (forall s, railData s = railDataFor (railPoint s) (cue s) (obj s)).
Proof.
  intros rd rad.
  destruct (clampToRail_first_minimal_offset marker) as [Hfm Hpt].
  assert (Hrad : rad = angleBetween (rd_reflected rd) (rd_toObj rd))
    by (unfold rad, rd, railDataFor; simpl; apply toDeg_back).
  split; [split; [exact Hfm | split; [exact Hpt |]] |].
  { unfold rd, railDataFor; simpl. rewrite Hpt. apply project_on_edge_on_edge. }
  split.
  { intros Hin. destruct Hfm as [Hmin Htie]. unfold rd, railDataFor; simpl.
    split; intros e'; rewrite <- !edge_offset_distance by exact Hin;
      [apply Hmin | apply Htie]. }
  split; [reflexivity |]. split; [reflexivity |]. split; [reflexivity |].
  split; [unfold rd, railDataFor; simpl; apply reflect_edgeNormal |].
  split; [reflexivity |]. split; [reflexivity |].
  split; [exact Hrad |].
  split; [rewrite Hrad; apply acos_bound |].
  split; [rewrite Hrad; apply cos_angleBetween | reflexivity].
Qed.

(** The default positions: marker (700,10), cue ball (250,350), object
    ball (600,200). *)
Lemma railData_mismatch_default :
  let marker := {| x := 700; y := 10 |} in
  let cue0 := {| x := 250; y := 350 |} in
  let obj0 := {| x := 600; y := 200 |} in
  let rd := railDataFor marker cue0 obj0 in
  let rad := rd_mismatchDeg rd * PI / 180 in
  in_table marker
  /\ first_minimal (edge_offset marker) (rd_edge rd)
  /\ rd_rp rd = project_on_edge marker (rd_edge rd)
  /\ on_edge (rd_rp rd) (rd_edge rd)
  /\ first_minimal (edge_distance marker) (rd_edge rd)
  /\ rd_reflected rd = reflect (rd_incoming rd) (rd_normal rd)
  /\ rad = angleBetween (rd_reflected rd) (rd_toObj rd)
  /\ 0 <= rad <= PI
  /\ cos rad = clamp (dot (norm (rd_reflected rd)) (norm (rd_toObj rd))) (-1) 1.
Proof.
  intros marker cue0 obj0 rd rad.
  assert (Hin : in_table marker)
    by (unfold in_table, marker; simpl; unfold_consts; lra).
  destruct (railData_mismatch marker cue0 obj0)
    as ((H1 & H2 & H3) & H4 & _ & _ & H5 & _ & _ & _ & H6 & H7 & H8 & _).
  exact (conj Hin (conj H1 (conj H2 (conj H3 (conj (H4 Hin)
           (conj H5 (conj H6 (conj H7 H8)))))))).
Defined.

(** ** Perfect rebound *)

(** X11. In the intended situation the mismatch vanishes: whenever the
    object ball lies on the mirrored ray, that is at the rail point plus
    a positive multiple of the reflected incoming vector (cue ball not on
    the rail point), the cosine of the mismatch angle reported by
    [railData] is 1, the cosine of 0 degrees. *)
Theorem mismatch_cosine_on_mirrored_ray (marker cue0 : Point) (t : R) :
  let rp := point (clampToRail marker) in
  let e := edge (clampToRail marker) in
  let mirrored := reflect (sub rp cue0) (edgeNormal e) in
  cue0 <> rp -> 0 < t ->
  cos (rd_mismatchDeg (railDataFor marker cue0 (add rp (mul mirrored t)))
       * PI / 180) = 1.
Proof.
  intros rp e mirrored Hne Ht.
  assert (Hin : sub rp cue0 <> zero).
  { rewrite sub_eq_zero. intros H. apply Hne. now symmetry. }
  assert (Hm : mirrored <> zero).
  { intros H. apply Hin. apply len_eq_0.
    rewrite <- (reflect_len _ (edgeNormal e)) by apply edgeNormal_nonzero.
    fold mirrored. rewrite H. now apply len_eq_0. }
  unfold railDataFor; simpl. fold rp e. fold mirrored.
  rewrite toDeg_back, sub_add_mul. now apply cos_angle_same_direction.
Qed.

(** Default marker (rail point (700,0) on the top rail), cue ball at
    (250,350): the mirrored ray leaves the rail point along (450,350). *)
Lemma mismatch_cosine_on_mirrored_ray_default :
  let marker := defaultRailPoint in
  let cue0 := {| x := 250; y := 350 |} in
  let rp := point (clampToRail marker) in
  let e := edge (clampToRail marker) in
  let mirrored := reflect (sub rp cue0) (edgeNormal e) in
  (cue0 <> rp /\ 0 < 1 / 2)
  /\ mirrored = {| x := 450; y := 350 |}
  /\ cos (rd_mismatchDeg
            (railDataFor marker cue0 (add rp (mul mirrored (1 / 2))))
          * PI / 180) = 1.
Proof.
  intros marker cue0 rp e mirrored.
  assert (Hrp : rp = {| x := 700; y := 0 |})
    by (unfold rp, marker; now rewrite clampToRail_default).
  assert (Hne : cue0 <> rp).
  { rewrite Hrp. intros H. apply (f_equal x) in H. simpl in H. lra. }
  assert (Ht : 0 < 1 / 2) by lra.
  assert (Hm : mirrored = {| x := 450; y := 350 |}).
  { unfold mirrored, e, marker. rewrite reflect_edgeNormal, clampToRail_default.
    fold marker. fold rp. rewrite Hrp. apply point_eq; simpl; lra. }
  exact (conj (conj Hne Ht)
           (conj Hm (mismatch_cosine_on_mirrored_ray marker cue0 (1 / 2) Hne Ht))).
Defined.

(** ** Snapping to a rail, repeated *)

Lemma first_minimal_strict (d : RailEdge -> R) (e e' : RailEdge) :
  first_minimal d e -> (edge_rank e' < edge_rank e)%nat -> d e < d e'.
Proof.
  intros [Hmin Htie] Hlt. destruct (Hmin e') as [H | H]; [exact H |].
  symmetry in H. apply Htie in H. lia.
Qed.

Ltac eval_clampToRail :=
  unfold clampToRail, num_eq, clamp, Rmin, Rmax; simpl; unfold_consts;
  real_cases; simpl;
  try reflexivity;
  try (f_equal; apply point_eq; simpl; lra);
  try (apply point_eq; simpl; lra);
  try (exfalso; lra).

Lemma clampToRail_point_in_table (p : Point) : in_table (point (clampToRail p)).
Proof.
  destruct (clampToRail_first_minimal_offset p) as [_ ->].
  pose proof (project_on_edge_on_edge p (edge (clampToRail p))) as Hon.
  destruct (edge (clampToRail p)); simpl in *; unfold in_table; simpl;
    unfold_consts; lra.
Qed.

Lemma clampToRail_top_fixed (c : R) :
  0 <= c <= TABLE_W ->
  clampToRail {| x := c; y := 0 |} = {| point := {| x := c; y := 0 |}; edge := top |}.
Proof. intros Hc. unfold_consts. eval_clampToRail. Qed.

Lemma clampToRail_bottom_fixed (c : R) :
  0 <= c <= TABLE_W ->
  clampToRail {| x := c; y := TABLE_H |}
  = {| point := {| x := c; y := TABLE_H |}; edge := bottom |}.
Proof. intros Hc. unfold_consts. eval_clampToRail. Qed.

Lemma clampToRail_left_fixed (c : R) :
  0 < c < TABLE_H ->
  clampToRail {| x := 0; y := c |} = {| point := {| x := 0; y := c |}; edge := left |}.
Proof. intros Hc. unfold_consts. eval_clampToRail. Qed.

Lemma clampToRail_right_fixed (c : R) :
  0 < c < TABLE_H ->
  clampToRail {| x := TABLE_W; y := c |}
  = {| point := {| x := TABLE_W; y := c |}; edge := right |}.
Proof. intros Hc. unfold_consts. eval_clampToRail. Qed.

Lemma clampToRail_side_point (a c : R) :
  (a = 0 \/ a = TABLE_W) -> 0 <= c <= TABLE_H ->
  point (clampToRail {| x := a; y := c |}) = {| x := a; y := c |}.
Proof. intros Ha Hc. unfold_consts. destruct Ha; subst a; eval_clampToRail. Qed.

(** Outside the table a second snap may name another edge: (-5,-3) snaps
    to the corner (0,0) as a point of the left rail, and the corner itself
    snaps to the top rail. *)
Lemma clampToRail_corner_changes_edge :
  clampToRail {| x := -5; y := -3 |}
  = {| point := {| x := 0; y := 0 |}; edge := left |}
  /\ clampToRail {| x := 0; y := 0 |}
     = {| point := {| x := 0; y := 0 |}; edge := top |}.
Proof. split; eval_clampToRail. Qed.

(** X12. The point returned by [clampToRail] lies on the returned edge,
    inside the table rectangle, and snapping it again returns the same
    point.  For a point of the table rectangle the second snap also
    returns the same edge, so [clampToRail] is idempotent there. *)
Theorem clampToRail_idempotent (p : Point) :
  let r := clampToRail p in
  in_table (point r)
  /\ on_edge (point r) (edge r)
  /\ point (clampToRail (point r)) = point r
  /\ (in_table p -> clampToRail (point r) = r).
Proof.
  intros r. destruct (clampToRail_first_minimal_offset p) as [Hfm Hpt].
  fold r in Hfm, Hpt. clearbody r.
  split; [rewrite Hpt; pose proof (project_on_edge_on_edge p (edge r)) as Hon;
          destruct (edge r); simpl in *; unfold in_table; simpl;
          unfold_consts; lra |].
  split; [rewrite Hpt; apply project_on_edge_on_edge |].
  destruct r as [q e]; simpl in *. subst q.
  assert (Hx : 0 <= clamp (x p) 0 TABLE_W <= TABLE_W)
    by (apply clamp_bounds; unfold_consts; lra).
  assert (Hy : 0 <= clamp (y p) 0 TABLE_H <= TABLE_H)
    by (apply clamp_bounds; unfold_consts; lra).
  destruct e; simpl.
  - rewrite clampToRail_top_fixed by exact Hx. now split.
  - rewrite clampToRail_bottom_fixed by exact Hx. now split.
  - split; [apply clampToRail_side_point; [now left | exact Hy] |].
    intros [Hpx Hpy].
    pose proof (first_minimal_strict _ _ top Hfm) as H1.
    pose proof (first_minimal_strict _ _ bottom Hfm) as H2.
    simpl in H1, H2. specialize (H1 ltac:(lia)). specialize (H2 ltac:(lia)).
    rewrite clamp_inside by lra.
    apply clampToRail_left_fixed. lra.
  - split; [apply clampToRail_side_point; [now right | exact Hy] |].
    intros [Hpx Hpy].
    pose proof (first_minimal_strict _ _ top Hfm) as H1.
    pose proof (first_minimal_strict _ _ bottom Hfm) as H2.
    simpl in H1, H2. specialize (H1 ltac:(lia)). specialize (H2 ltac:(lia)).
    rewrite clamp_inside by lra.
    apply clampToRail_right_fixed. lra.
Qed.

(** The default rail marker: snapped to (700,0), which snaps to itself. *)
Lemma clampToRail_idempotent_default :
  let p := defaultRailPoint in
  let r := clampToRail p in
  in_table p
  /\ in_table (point r)
  /\ on_edge (point r) (edge r)
  /\ point (clampToRail (point r)) = point r
  /\ clampToRail (point r) = r.
Proof.
  intros p r.
  assert (Hin : in_table p).
  { unfold p. rewrite defaultRailPoint_value.
    unfold in_table; simpl; unfold_consts; lra. }
  destruct (clampToRail_idempotent p) as (H1 & H2 & H3 & H4).
  exact (conj Hin (conj H1 (conj H2 (conj H3 (H4 Hin))))).
Defined.

(** * Further properties of the drag controller *)

(** ** Pockets *)

Lemma square_le_bound (a b r : R) :
  0 <= r -> a * a + b * b <= r * r -> - r <= a <= r /\ - r <= b <= r.
Proof. intros Hr H. repeat split; nra. Qed.

Lemma dist_le_box (p c : Point) (r : R) :
  dist p c <= r ->
  (- r <= x p - x c <= r) /\ (- r <= y p - y c <= r).
Proof.
  unfold dist; cbv zeta. rewrite hypot_le_iff. intros [Hr H].
  now apply square_le_bound.
Qed.

Lemma pocket_id_inj (pk1 pk2 : Pocket) :
  In pk1 pockets -> In pk2 pockets -> id pk1 = id pk2 -> pk1 = pk2.
Proof.
  unfold pockets. simpl. intros H1 H2 Hid.
  repeat (destruct H1 as [H1 | H1]; [subst pk1 |]); try contradiction;
    repeat (destruct H2 as [H2 | H2]; [subst pk2 |]); try contradiction;
    simpl in Hid; try reflexivity; discriminate.
Qed.

Lemma pocketRadius_bounds (isCoarse : bool) :
  0 < pocketDownRadius isCoarse
  /\ pocketDownRadius isCoarse <= pocketMoveRadius isCoarse
  /\ pocketMoveRadius isCoarse <= 33.
Proof. unfold pocketDownRadius, pocketMoveRadius. destruct isCoarse; lra. Qed.

Lemma pocket_box_unique (p : Point) (pk1 pk2 : Pocket) :
  In pk1 pockets -> In pk2 pockets ->
  (-33 <= x p - x pk1 <= 33 /\ -33 <= y p - y pk1 <= 33) ->
  (-33 <= x p - x pk2 <= 33 /\ -33 <= y p - y pk2 <= 33) ->
  pk1 = pk2.
Proof.
  unfold pockets. simpl. unfold_consts. intros H1 H2 B1 B2.
  repeat (destruct H1 as [H1 | H1]; [subst pk1 |]); try contradiction;
    repeat (destruct H2 as [H2 | H2]; [subst pk2 |]); try contradiction;
    simpl in B1, B2; try reflexivity; exfalso; lra.
Qed.

Lemma pocket_hit_unique (isCoarse : bool) (p : Point) (pk1 pk2 : Pocket) :
  In pk1 pockets -> In pk2 pockets ->
  dist p pk1 <= pocketMoveRadius isCoarse ->
  dist p pk2 <= pocketMoveRadius isCoarse ->
  pk1 = pk2.
Proof.
  intros H1 H2 D1 D2.
  destruct (pocketRadius_bounds isCoarse) as (_ & _ & Hr).
  apply dist_le_box in D1, D2.
  apply (pocket_box_unique p); try assumption; lra.
Qed.

(** X13. The hit circles of the six pockets never overlap, for either
    pointer type and for both the pointer-down and the larger
    pointer-move radius: a point lies in the hit circle of at most one
    pocket, so the list order of the pockets never decides a hit. *)
Theorem pocket_circles_disjoint (isCoarse : bool) (p : Point) (pk1 pk2 : Pocket) :
  In pk1 pockets -> In pk2 pockets ->
  (dist p pk1 <= pocketMoveRadius isCoarse ->
   dist p pk2 <= pocketMoveRadius isCoarse -> pk1 = pk2)
  /\ (dist p pk1 <= pocketDownRadius isCoarse ->
      dist p pk2 <= pocketDownRadius isCoarse -> pk1 = pk2).
Proof.
  intros H1 H2. split; [now apply pocket_hit_unique |].
  destruct (pocketRadius_bounds isCoarse) as (_ & Hle & _).
  intros D1 D2. apply (pocket_hit_unique isCoarse p); try assumption; lra.
Qed.

(** The point (3,4), five units from pocket TL. *)
Lemma pocket_circles_disjoint_TL :
  let p := {| x := 3; y := 4 |} in
  let TL := mkPocket "TL" {| x := 0; y := 0 |} in
  (In TL pockets /\ dist p TL <= pocketMoveRadius false
   /\ dist p TL <= pocketDownRadius false)
  /\ TL = TL.
Proof.
  intros p TL.
  assert (Hin : In TL pockets) by (now left).
  assert (Hm : dist p TL <= pocketMoveRadius false).
  { unfold pocketMoveRadius, dist; simpl. apply hypot_le; lra. }
  assert (Hd : dist p TL <= pocketDownRadius false).
  { unfold pocketDownRadius, dist; simpl. apply hypot_le; lra. }
  destruct (pocket_circles_disjoint false p TL TL Hin Hin) as [H1 _].
  exact (conj (conj Hin (conj Hm Hd)) (H1 Hm Hm)).
Defined.

(** ** Selection, drags and modes *)

Lemma selectedPocket_of_id (pk : Pocket) (s : State) :
  In pk pockets -> id pk = selectedPocketId s -> selectedPocket s = Some pk.
Proof.
  intros Hin Hid. unfold selectedPocket.
  destruct (find _ pockets) as [pk' |] eqn:Hf.
  - apply find_some in Hf as [Hin' He]. apply String.eqb_eq in He.
    f_equal. apply pocket_id_inj; try assumption. congruence.
  - exfalso. apply (find_none _ _ Hf) in Hin. simpl in Hin.
    rewrite Hid, String.eqb_refl in Hin. discriminate.
Qed.

Lemma ghost_dist_object (object pk : Point) :
  object <> pk -> dist (ghostBallForPocket object pk) object = 2 * BALL_R.
Proof.
  intros Hne.
  assert (Hv : sub object pk <> zero) by (now rewrite sub_eq_zero).
  rewrite dist_len, ghost_offset, len_mul, len_norm by assumption.
  unfold BALL_R. rewrite Rabs_pos_eq by lra. ring.
Qed.

Lemma ghost_degenerate (q : Point) : ghostBallForPocket q q = q.
Proof.
  unfold ghostBallForPocket. rewrite sub_self, norm_zero.
  apply point_eq; simpl; ring.
Qed.

Lemma interior_far_from_pockets (q : Point) (pk : Pocket) :
  in_interior q -> In pk pockets -> BALL_R <= dist q pk.
Proof.
  intros [Hx Hy] Hin.
  assert (Hd : BALL_R <= y q - y pk \/ BALL_R <= y pk - y q).
  { unfold pockets in Hin. simpl in Hin. unfold_consts.
    repeat (destruct Hin as [Hin | Hin]; [subst pk; simpl; lra |]).
    contradiction. }
  apply Rnot_lt_le. intros Hlt.
  pose proof (dist_le_box q pk (dist q pk) (Rle_refl _)) as [_ Hb].
  lra.
Qed.

Section ControllerProperties.

Variable isCoarse : bool.

Lemma find_pocket_valid (f : Pocket -> bool) (pk : Pocket) :
  find f pockets = Some pk -> valid_pocket_id (id pk).
Proof. intros H. apply find_some in H as [Hin _]. now exists pk. Qed.

Lemma step_valid_pocket_id (s : State) (e : Event) :
  valid_pocket_id (selectedPocketId s) ->
  valid_pocket_id (selectedPocketId (step isCoarse s e)).
Proof.
  intros Hv. destruct e as [p | p | | | m]; simpl; try exact Hv.
  - unfold onPointerDown.
    destruct (find _ pockets) as [pk |] eqn:Hf;
      [simpl; now apply (find_pocket_valid _ _ Hf) |].
    repeat match goal with
           | |- context [if ?b then _ else _] => destruct b
           end; exact Hv.
  - unfold onPointerMove. destruct (target s); try exact Hv.
    match goal with
    | |- context [find ?f pockets] =>
        destruct (find f pockets) as [pk |] eqn:Hf
    end; [simpl; now apply (find_pocket_valid _ _ Hf) | exact Hv].
Qed.

Lemma reachable_valid_pocket_id (s : State) :
  reachable isCoarse s -> valid_pocket_id (selectedPocketId s).
Proof.
  induction 1 as [| s e _ IH].
  - exists (mkPocket "BR" (mkPoint TABLE_W TABLE_H)). split; [| reflexivity].
    unfold pockets. simpl. tauto.
  - now apply step_valid_pocket_id.
Qed.

Lemma reachable_interior (s : State) :
  reachable isCoarse s -> in_interior (cue s) /\ in_interior (obj s).
Proof.
  induction 1 as [| s e _ IH].
  - split; [apply defaultCue_in_interior | apply defaultObj_in_interior].
  - now apply step_interior.
Qed.

(** X14. In every reachable state the selected pocket identifier names
    one of the six pockets, so the lookup behind [selectedPocket] always
    succeeds, with the pocket of that identifier, and [pocketData] is
    always defined. *)
Theorem selected_pocket_always_found (s : State) :
  reachable isCoarse s ->
  exists pk d,
    In pk pockets
    /\ id pk = selectedPocketId s
    /\ selectedPocket s = Some pk
    /\ pocketData s = Some d
    /\ d = pocketDataFor (cue s) (obj s) pk.
Proof.
  intros Hr. destruct (reachable_valid_pocket_id s Hr) as (pk & Hin & Hid).
  pose proof (selectedPocket_of_id pk s Hin Hid) as Hsel.
  exists pk, (pocketDataFor (cue s) (obj s) pk).
  repeat split; try assumption. unfold pocketData. now rewrite Hsel.
Qed.

(** X15. In every reachable state the object ball keeps at least one ball
    radius away from every pocket centre, so the degenerate case of
    [ghostBallForPocket] (object ball on the pocket, where the ghost ball
    collapses onto the object ball) never arises: the ghost ball of the
    selected pocket is exactly two radii from the object ball. *)
Theorem ghost_ball_well_defined (s : State) :
  reachable isCoarse s ->
  (forall q, ghostBallForPocket q q = q)
  /\ (forall pk, In pk pockets ->
                 BALL_R <= dist (obj s) pk /\ BALL_R <= dist (cue s) pk)
  /\ exists pk d,
       selectedPocket s = Some pk /\ pocketData s = Some d
       /\ obj s <> at_point pk
       /\ dist (pd_ghost d) (obj s) = 2 * BALL_R.
Proof.
  intros Hr. destruct (reachable_interior s Hr) as [Hc Ho].
  split; [apply ghost_degenerate |]. split.
  - intros pk Hin. split; now apply interior_far_from_pockets.
  - destruct (reachable_valid_pocket_id s Hr) as (pk & Hin & Hid).
    pose proof (selectedPocket_of_id pk s Hin Hid) as Hsel.
    assert (Hne : obj s <> at_point pk).
    { intros H. pose proof (interior_far_from_pockets _ pk Ho Hin) as Hd.
      rewrite H in Hd. rewrite dist_len, sub_self in Hd.
      assert (len zero = 0) by (now apply len_eq_0). unfold BALL_R in Hd. lra. }
    exists pk, (pocketDataFor (cue s) (obj s) pk).
    split; [exact Hsel |]. split; [unfold pocketData; now rewrite Hsel |].
    split; [exact Hne |]. simpl. now apply ghost_dist_object.
Qed.

Lemma pointer_move_frame_mode (p : Point) (s : State) :
  mode (onPointerMove isCoarse p s) = mode s
  /\ target (onPointerMove isCoarse p s) = target s.
Proof.
  unfold onPointerMove. destruct (target s) eqn:Ht; try (now split).
  match goal with
  | |- context [find ?f pockets] => destruct (find f pockets)
  end; now split.
Qed.

(** X16. A pointer-move never changes the drag target or the mode, and it
    writes only the cell its target names: the cue ball for [cue], the
    object ball for [obj], the rail marker for [rail], the selected
    pocket for a pocket target, nothing for [none]. *)
Theorem pointer_move_frame (p : Point) (s : State) :
  let s' := onPointerMove isCoarse p s in
  target s' = target s
  /\ mode s' = mode s
  /\ (target s <> T_cue -> cue s' = cue s)
  /\ (target s <> T_obj -> obj s' = obj s)
  /\ (target s <> T_rail -> railPoint s' = railPoint s)
  /\ ((forall i, target s <> T_pocket i) ->
      selectedPocketId s' = selectedPocketId s).
Proof.
  unfold onPointerMove. destruct (target s) eqn:Ht;
    try (simpl; repeat split; intros; try reflexivity; congruence).
  match goal with
  | |- context [find ?f pockets] => destruct (find f pockets)
  end; simpl; repeat split; intros; try reflexivity; try assumption.
  match goal with
  | Hn : forall i, _ <> T_pocket i |- _ => exfalso; eapply Hn; reflexivity
  end.
Qed.

(** X17. In every reachable state the rail marker lies in the table
    rectangle, so the edge [railData] snaps it to is the first edge, in
    the order top, bottom, left, right, at minimum distance from the
    marker, and the rail point lies on that edge. *)
Theorem rail_marker_snaps_to_nearest (s : State) :
  reachable isCoarse s ->
  in_table (railPoint s)
  /\ first_minimal (edge_distance (railPoint s)) (rd_edge (railData s))
  /\ on_edge (rd_rp (railData s)) (rd_edge (railData s))
  /\ clampToRail (rd_rp (railData s))
     = {| point := rd_rp (railData s); edge := rd_edge (railData s) |}.
Proof.
  intros Hr. pose proof (railPoint_stays_in_table isCoarse s Hr) as Hin.
  destruct (clampToRail_first_minimal_offset (railPoint s)) as [[Hmin Htie] Hpt].
  unfold railData, railDataFor; simpl.
  split; [exact Hin |]. split; [| split].
  - split; intros e'; rewrite <- !edge_offset_distance by exact Hin;
      [apply Hmin | apply Htie].
  - rewrite Hpt. apply project_on_edge_on_edge.
  - set (r := clampToRail (railPoint s)) in *.
    assert (Hfm : first_minimal (edge_offset (railPoint s)) (edge r))
      by (split; assumption).
    clearbody r. destruct r as [q e]; simpl in *. subst q.
    destruct Hin as [Hx Hy].
    destruct e; simpl;
      rewrite ?(clamp_inside (x (railPoint s))), ?(clamp_inside (y (railPoint s)))
        by assumption.
    + now apply clampToRail_top_fixed.
    + now apply clampToRail_bottom_fixed.
    + pose proof (first_minimal_strict _ _ top Hfm) as H1.
      pose proof (first_minimal_strict _ _ bottom Hfm) as H2.
      simpl in H1, H2. specialize (H1 ltac:(lia)). specialize (H2 ltac:(lia)).
      apply clampToRail_left_fixed. lra.
    + pose proof (first_minimal_strict _ _ top Hfm) as H1.
      pose proof (first_minimal_strict _ _ bottom Hfm) as H2.
      simpl in H1, H2. specialize (H1 ltac:(lia)). specialize (H2 ltac:(lia)).
      apply clampToRail_right_fixed. lra.
Qed.

Lemma onPointerDown_first_pocket (p : Point) (s : State) :
  dist p {| x := 0; y := 0 |} <= pocketDownRadius isCoarse ->
  onPointerDown isCoarse p s
  = setSelectedPocketId "TL" (setTarget (T_pocket "TL") s).
Proof.
  intros Hd. unfold onPointerDown.
  rewrite (find_first _ [] (mkPocket "TL" (mkPoint 0 0)) (tl pockets));
    [reflexivity | intros q [] | now apply isInsideCircle_true].
Qed.

Lemma onPointerDown_no_pocket_target (p : Point) (s : State) (t : DragTarget) :
  target (onPointerDown isCoarse p s) = t ->
  (forall i, t <> T_pocket i) ->
  onPointerDown isCoarse p s = setTarget t s.
Proof.
  unfold onPointerDown. intros Ht Hn.
  match goal with
  | H : context [find ?f pockets] |- _ => destruct (find f pockets)
  end.
  - simpl in Ht. exfalso. eapply Hn. symmetry. exact Ht.
  - repeat match goal with
           | H : context [if ?b then _ else _] |- _ => destruct b
           end; simpl in Ht; now subst t.
Qed.

(** X18. While a pocket is the drag target, a pointer-move inside the
    move circle of a pocket selects that pocket and changes nothing else,
    and a pointer-move outside every pocket circle changes nothing: the
    selection is sticky. *)
Theorem pocket_drag_selects (p : Point) (s : State) (i : string) :
  target s = T_pocket i ->
  (forall pk, In pk pockets -> dist p pk <= pocketMoveRadius isCoarse ->
              onPointerMove isCoarse p s = setSelectedPocketId (id pk) s)
  /\ ((forall pk, In pk pockets -> ~ dist p pk <= pocketMoveRadius isCoarse) ->
      onPointerMove isCoarse p s = s).
Proof.
  intros Ht. unfold onPointerMove. rewrite Ht. split.
  - intros pk Hin Hd.
    match goal with
    | |- context [find ?f pockets] =>
        destruct (find f pockets) as [pk' |] eqn:Hf
    end.
    + apply find_some in Hf as [Hin' Hd']. apply isInsideCircle_true in Hd'.
      now rewrite (pocket_hit_unique isCoarse p pk' pk).
    + apply (find_none _ _ Hf) in Hin. apply isInsideCircle_false in Hin.
      contradiction.
  - intros Hmiss.
    match goal with
    | |- context [find ?f pockets] =>
        replace (find f pockets) with (@None Pocket); [reflexivity |]
    end.
    symmetry. apply find_none_iff. intros q Hq.
    apply isInsideCircle_false. now apply Hmiss.
Qed.

Lemma setCue_setCue (a b : Point) (s : State) : setCue a (setCue b s) = setCue a s.
Proof. reflexivity. Qed.

Lemma run_moves_cue (qs : list Point) (q : Point) (s : State) :
  target s = T_cue ->
  run isCoarse s (map PointerMove (qs ++ [q])) = setCue (clampPointToInner q) s.
Proof.
  revert s. induction qs as [| q0 qs IH]; intros s Ht.
  - simpl. unfold onPointerMove. now rewrite Ht.
  - change (run isCoarse s (map PointerMove ((q0 :: qs) ++ [q])))
      with (run isCoarse (onPointerMove isCoarse q0 s)
              (map PointerMove (qs ++ [q]))).
    rewrite IH; unfold onPointerMove; now rewrite Ht.
Qed.

Lemma run_moves_obj (qs : list Point) (q : Point) (s : State) :
  target s = T_obj ->
  run isCoarse s (map PointerMove (qs ++ [q])) = setObj (clampPointToInner q) s.
Proof.
  revert s. induction qs as [| q0 qs IH]; intros s Ht.
  - simpl. unfold onPointerMove. now rewrite Ht.
  - change (run isCoarse s (map PointerMove ((q0 :: qs) ++ [q])))
      with (run isCoarse (onPointerMove isCoarse q0 s)
              (map PointerMove (qs ++ [q]))).
    rewrite IH; unfold onPointerMove; now rewrite Ht.
Qed.

Lemma run_moves_rail (qs : list Point) (q : Point) (s : State) :
  target s = T_rail ->
  run isCoarse s (map PointerMove (qs ++ [q]))
  = setRailPoint {| x := clamp (x q) 0 TABLE_W; y := clamp (y q) 0 TABLE_H |} s.
Proof.
  revert s. induction qs as [| q0 qs IH]; intros s Ht.
  - simpl. unfold onPointerMove. now rewrite Ht.
  - change (run isCoarse s (map PointerMove ((q0 :: qs) ++ [q])))
      with (run isCoarse (onPointerMove isCoarse q0 s)
              (map PointerMove (qs ++ [q]))).
    rewrite IH; unfold onPointerMove; now rewrite Ht.
Qed.

Lemma run_gesture (p : Point) (moves : list Event) (s : State) :
  run isCoarse s (PointerDown p :: moves ++ [PointerUp])
  = onPointerUp (run isCoarse (onPointerDown isCoarse p s) moves).
Proof.
  change (run isCoarse s (PointerDown p :: moves ++ [PointerUp]))
    with (run isCoarse (onPointerDown isCoarse p s) (moves ++ [PointerUp])).
  now rewrite run_app.
Qed.

(** X22. A whole drag gesture (pointer-down, any number of pointer-moves,
    pointer-up) that grabbed the cue ball, the object ball or the rail
    marker has the effect of its last move alone: the grabbed item ends at
    the clamped last position, the drag target is none, and everything
    else is as before the gesture. *)
Theorem drag_gesture (p : Point) (qs : list Point) (q : Point) (s : State) :
  let gesture := PointerDown p :: map PointerMove (qs ++ [q]) ++ [PointerUp] in
  (target (onPointerDown isCoarse p s) = T_cue ->
   run isCoarse s gesture = setTarget T_none (setCue (clampPointToInner q) s))
  /\ (target (onPointerDown isCoarse p s) = T_obj ->
      run isCoarse s gesture = setTarget T_none (setObj (clampPointToInner q) s))
  /\ (target (onPointerDown isCoarse p s) = T_rail ->
      run isCoarse s gesture
      = setTarget T_none
          (setRailPoint
             {| x := clamp (x q) 0 TABLE_W; y := clamp (y q) 0 TABLE_H |} s)).
Proof.
  intros gesture. unfold gesture. rewrite run_gesture.
  split; [| split]; intros Ht;
    rewrite (onPointerDown_no_pocket_target p s _ Ht) by (intros i; discriminate).
  - now rewrite run_moves_cue.
  - now rewrite run_moves_obj.
  - now rewrite run_moves_rail.
Qed.

(** X23. Only the mode selector changes the mode: pointer events and
    reset leave it alone.  Changing the mode changes nothing else, and the
    aim geometry of both modes does not depend on it. *)
Theorem mode_changes_only_by_setMode (s : State) (e : Event) (m : Mode) :
  mode (step isCoarse s e) = match e with SetMode m' => m' | _ => mode s end
  /\ (cue (setMode m s) = cue s /\ obj (setMode m s) = obj s
      /\ railPoint (setMode m s) = railPoint s
      /\ selectedPocketId (setMode m s) = selectedPocketId s
      /\ target (setMode m s) = target s)
  /\ pocketData (setMode m s) = pocketData s
  /\ railData (setMode m s) = railData s.
Proof.
  split; [| now repeat split].
  destruct e as [p | p | | | m']; simpl; try reflexivity.
  - now destruct (onPointerDown_frame isCoarse p s) as (-> & _).
  - now destruct (pointer_move_frame_mode p s).
Qed.

(** X24. The selected pocket changes only through a pocket hit: a step
    that changes it is a pointer-down inside the hit circle of a pocket, or
    a pointer-move inside the move circle of a pocket during a pocket
    drag, and the new selection is that pocket. *)
Theorem selection_changes_only_on_pocket_hit (s : State) (e : Event) :
  selectedPocketId (step isCoarse s e) <> selectedPocketId s ->
  exists p pk,
    In pk pockets
    /\ selectedPocketId (step isCoarse s e) = id pk
    /\ ((e = PointerDown p /\ dist p pk <= pocketDownRadius isCoarse)
        \/ (e = PointerMove p /\ (exists i, target s = T_pocket i)
            /\ dist p pk <= pocketMoveRadius isCoarse)).
Proof.
  destruct e as [p | p | | | m]; simpl; intros Hch;
    try (exfalso; apply Hch; reflexivity).
  - unfold onPointerDown in *.
    match goal with
    | H : context [find ?f pockets] |- _ =>
        destruct (find f pockets) as [pk |] eqn:Hf
    end.
    + apply find_some in Hf as [Hin Hd]. apply isInsideCircle_true in Hd.
      exists p, pk. split; [exact Hin |]. split; [reflexivity |].
      left. now split.
    + exfalso. apply Hch.
      repeat match goal with
             | |- context [if ?b then _ else _] => destruct b
             end; reflexivity.
  - unfold onPointerMove in *.
    destruct (target s) as [| | | | i] eqn:Ht;
      try (exfalso; apply Hch; reflexivity).
    match goal with
    | H : context [find ?f pockets] |- _ =>
        destruct (find f pockets) as [pk |] eqn:Hf
    end; [| exfalso; apply Hch; reflexivity].
    apply find_some in Hf as [Hin Hd]. apply isInsideCircle_true in Hd.
    exists p, pk. split; [exact Hin |]. split; [reflexivity |].
    right. split; [reflexivity |]. split; [now exists i | exact Hd].
Qed.

End ControllerProperties.

(** ** Classifying a pointer-down *)

Lemma onPointerDown_pocket (c : bool) (p : Point) (s : State) (pk : Pocket) :
  In pk pockets -> dist p pk <= pocketDownRadius c ->
  onPointerDown c p s = setSelectedPocketId (id pk) (setTarget (T_pocket (id pk)) s).
Proof.
  intros Hin Hd. unfold onPointerDown.
  match goal with
  | |- context [find ?f pockets] => destruct (find f pockets) as [pk' |] eqn:Hf
  end.
  - apply find_some in Hf as [Hin' Hd']. apply isInsideCircle_true in Hd'.
    destruct (pocketRadius_bounds c) as (_ & Hle & _).
    assert (pk' = pk) as ->
        by (apply (pocket_hit_unique c p); try assumption; lra).
    reflexivity.
  - apply (find_none _ _ Hf) in Hin. apply isInsideCircle_false in Hin.
    contradiction.
Qed.

Lemma onPointerDown_pocket_inv (c : bool) (p : Point) (s : State) (i : string) :
  target (onPointerDown c p s) = T_pocket i ->
  exists pk, In pk pockets /\ dist p pk <= pocketDownRadius c /\ id pk = i.
Proof.
  unfold onPointerDown. intros Ht.
  match goal with
  | H : context [find ?f pockets] |- _ => destruct (find f pockets) as [pk |] eqn:Hf
  end.
  - apply find_some in Hf as [Hin Hd]. apply isInsideCircle_true in Hd.
    exists pk. simpl in Ht. repeat split; try assumption. congruence.
  - exfalso.
    repeat match goal with
           | H : context [if ?b then _ else _] |- _ => destruct b
           end; discriminate.
Qed.

Lemma onPointerDown_no_pocket (c : bool) (p : Point) (s : State) :
  noPocketHit c p ->
  onPointerDown c p s
  = if isInsideCircle p (cue s) (BALL_R * HIT_SCALE c) then setTarget T_cue s
    else if isInsideCircle p (obj s) (BALL_R * HIT_SCALE c) then setTarget T_obj s
    else if num_le (Rabs (x p - x (point (clampToRail (railPoint s)))))
                   (RAIL_HIT_HALF c)
            && num_le (Rabs (y p - y (point (clampToRail (railPoint s)))))
                      (RAIL_HIT_HALF c)
         then setTarget T_rail s
         else setTarget T_none s.
Proof.
  intros Hn. unfold onPointerDown.
  match goal with
  | |- context [find ?f pockets] => replace (find f pockets) with (@None Pocket)
  end; [reflexivity |].
  symmetry. apply find_none_iff. intros q Hq. apply isInsideCircle_false.
  now apply Hn.
Qed.

Lemma railHit_test (c : bool) (p : Point) (s : State) :
  num_le (Rabs (x p - x (point (clampToRail (railPoint s))))) (RAIL_HIT_HALF c)
  && num_le (Rabs (y p - y (point (clampToRail (railPoint s))))) (RAIL_HIT_HALF c)
  = true <-> railHit c p s.
Proof.
  unfold railHit. cbv zeta. rewrite andb_true_iff, !num_le_true. tauto.
Qed.

Lemma onPointerDown_cue (c : bool) (p : Point) (s : State) :
  noPocketHit c p -> cueHit c p s -> onPointerDown c p s = setTarget T_cue s.
Proof.
  intros Hn Hc. rewrite onPointerDown_no_pocket by exact Hn.
  apply isInsideCircle_true in Hc. now rewrite Hc.
Qed.

Lemma onPointerDown_obj (c : bool) (p : Point) (s : State) :
  noPocketHit c p -> ~ cueHit c p s -> objHit c p s ->
  onPointerDown c p s = setTarget T_obj s.
Proof.
  intros Hn Hc Ho. rewrite onPointerDown_no_pocket by exact Hn.
  apply isInsideCircle_false in Hc. apply isInsideCircle_true in Ho.
  now rewrite Hc, Ho.
Qed.

Lemma onPointerDown_rail (c : bool) (p : Point) (s : State) :
  noPocketHit c p -> ~ cueHit c p s -> ~ objHit c p s -> railHit c p s ->
  onPointerDown c p s = setTarget T_rail s.
Proof.
  intros Hn Hc Ho Hr. rewrite onPointerDown_no_pocket by exact Hn.
  apply isInsideCircle_false in Hc, Ho. apply railHit_test in Hr.
  now rewrite Hc, Ho, Hr.
Qed.

Lemma onPointerDown_none (c : bool) (p : Point) (s : State) :
  noPocketHit c p -> ~ cueHit c p s -> ~ objHit c p s -> ~ railHit c p s ->
  onPointerDown c p s = setTarget T_none s.
Proof.
  intros Hn Hc Ho Hr. rewrite onPointerDown_no_pocket by exact Hn.
  apply isInsideCircle_false in Hc, Ho.
  rewrite Hc, Ho.
  destruct (_ && _) eqn:E; [| reflexivity].
  apply railHit_test in E. contradiction.
Qed.

Lemma onPointerDown_none_inv (c : bool) (p : Point) (s : State) :
  target (onPointerDown c p s) = T_none ->
  noPocketHit c p /\ ~ cueHit c p s /\ ~ objHit c p s /\ ~ railHit c p s.
Proof.
  intros Ht.
  assert (Hn : noPocketHit c p).
  { intros q Hq Hd. rewrite (onPointerDown_pocket c p s q Hq Hd) in Ht.
    discriminate. }
  split; [exact Hn |].
  rewrite onPointerDown_no_pocket in Ht by exact Hn.
  destruct (isInsideCircle p (cue s) _) eqn:Ec; [discriminate |].
  destruct (isInsideCircle p (obj s) _) eqn:Eo; [discriminate |].
  destruct (_ && _) eqn:Er; [discriminate |].
  apply isInsideCircle_false in Ec, Eo.
  repeat split; try assumption.
  intros Hr. apply railHit_test in Hr. congruence.
Qed.

Lemma hits_monotone (p : Point) (s : State) :
  (forall pk, pocketHit false p pk -> pocketHit true p pk)
  /\ (cueHit false p s -> cueHit true p s)
  /\ (objHit false p s -> objHit true p s)
  /\ (railHit false p s -> railHit true p s).
Proof.
  unfold pocketHit, cueHit, objHit, railHit, pocketDownRadius, HIT_SCALE,
    RAIL_HIT_HALF, BALL_R. cbv zeta.
  repeat split; intros; lra.
Qed.

(** X19. A coarse (touch) pointer only enlarges the targets: every pocket
    circle, ball circle and the rail square of the fine pointer is
    contained in its coarse counterpart.  So a pointer-down that starts a
    drag with a fine pointer starts one with a coarse pointer, and a
    pocket tap has exactly the same effect with both. *)
Theorem coarse_pointer_enlarges_targets (p : Point) (s : State) :
  (forall pk, pocketHit false p pk -> pocketHit true p pk)
  /\ (cueHit false p s -> cueHit true p s)
  /\ (objHit false p s -> objHit true p s)
  /\ (railHit false p s -> railHit true p s)
  /\ (target (onPointerDown false p s) <> T_none ->
      target (onPointerDown true p s) <> T_none)
  /\ (forall i, target (onPointerDown false p s) = T_pocket i ->
                onPointerDown true p s = onPointerDown false p s).
Proof.
  destruct (hits_monotone p s) as (Hp & Hc & Ho & Hr).
  split; [exact Hp |]. split; [exact Hc |]. split; [exact Ho |].
  split; [exact Hr |]. split.
  - intros Hfine Hcoarse. apply Hfine.
    apply onPointerDown_none_inv in Hcoarse as (Nn & Nc & No & Nr).
    rewrite onPointerDown_none; [reflexivity | | tauto | tauto | tauto].
    intros q Hq Hd. apply (Nn q Hq). now apply Hp.
  - intros i Ht.
    apply onPointerDown_pocket_inv in Ht as (pk & Hin & Hd & _).
    rewrite (onPointerDown_pocket false p s pk Hin Hd).
    apply onPointerDown_pocket; [exact Hin | now apply Hp].
Qed.

(** ** Pointer coordinates *)

(** X20. The drawing offset [T] and the cushion subtraction of
    [clientToSvg] undo each other: a play-field point drawn at [T p] and
    pointed at there is read back as [p], and [T] maps the table
    rectangle into the 1060 by 560 frame with a margin of one cushion on
    every side. *)
Theorem drawing_offset_inverts_cushion (m : ScreenCTM) (client p : Point) :
  T (clientToSvg (Some m) client) = toUser m client
  /\ (toUser m client = T p -> clientToSvg (Some m) client = p)
  /\ (in_table p ->
      CUSHION <= x (T p) <= outerW - CUSHION
      /\ CUSHION <= y (T p) <= outerH - CUSHION)
  /\ outerW = 1060 /\ outerH = 560.
Proof.
  split; [apply point_eq; simpl; ring |]. split.
  - intros H. unfold clientToSvg. rewrite H. apply point_eq; simpl; ring.
  - split; [| unfold outerW, outerH; unfold_consts; lra].
    intros [Hx Hy]. unfold outerW, outerH, T; simpl. unfold_consts. lra.
Qed.

(** A screen matrix that is the identity, and the point (100,200). *)
Lemma drawing_offset_inverts_cushion_identity :
  let m := {| toUser := fun q => q |} in
  let p := {| x := 100; y := 200 |} in
  let client := {| x := 130; y := 230 |} in
  (toUser m client = T p /\ in_table p)
  /\ T (clientToSvg (Some m) client) = toUser m client
  /\ clientToSvg (Some m) client = p
  /\ (CUSHION <= x (T p) <= outerW - CUSHION
      /\ CUSHION <= y (T p) <= outerH - CUSHION)
  /\ outerW = 1060 /\ outerH = 560.
Proof.
  intros m p client.
  assert (Hc : toUser m client = T p)
    by (apply point_eq; simpl; unfold_consts; lra).
  assert (Hin : in_table p)
    by (unfold in_table; simpl; unfold_consts; lra).
  destruct (drawing_offset_inverts_cushion m client p) as (H1 & H2 & H3 & H4).
  exact (conj (conj Hc Hin) (conj H1 (conj (H2 Hc) (conj (H3 Hin) H4)))).
Defined.

Lemma dist_origin_self : dist {| x := 0; y := 0 |} {| x := 0; y := 0 |} = 0.
Proof. apply (len_eq_0 (sub zero zero)). apply sub_self. Qed.

(** X21. Without an SVG element pointer-down and pointer-move do
    nothing, while pointer-up, which has no such test, still ends the
    drag.  With the element but no screen matrix every pointer is read as
    the origin of the play field, where pocket TL lies: a pointer-down
    then selects pocket TL, and a pointer-move during a ball drag puts the
    ball at the top-left corner of the interior, (12,12). *)
Theorem pointer_without_screen_matrix (isCoarse : bool) (client : Point) (s : State) :
  clientToSvg None client = {| x := 0; y := 0 |}
  /\ onPointerDownEvent isCoarse None client s = s
  /\ onPointerMoveEvent isCoarse None client s = s
  /\ onPointerUpEvent None s = setTarget T_none s
  /\ (target s <> T_none -> onPointerUpEvent None s <> s)
  /\ onPointerDownEvent isCoarse (Some None) client s
     = setSelectedPocketId "TL" (setTarget (T_pocket "TL") s)
  /\ (target s = T_cue ->
      onPointerMoveEvent isCoarse (Some None) client s
      = setCue {| x := 12; y := 12 |} s)
  /\ (target s = T_obj ->
      onPointerMoveEvent isCoarse (Some None) client s
      = setObj {| x := 12; y := 12 |} s).
Proof.
  assert (Hc : clampPointToInner {| x := 0; y := 0 |} = {| x := 12; y := 12 |}).
  { unfold clampPointToInner, clamp, Rmin, Rmax; simpl. unfold_consts.
    real_cases; apply point_eq; simpl; lra. }
  split; [reflexivity |]. split; [reflexivity |]. split; [reflexivity |].
  split; [reflexivity |]. split.
  { intros Ht H. apply Ht. rewrite <- H. reflexivity. }
  split.
  - simpl. apply onPointerDown_first_pocket. rewrite dist_origin_self.
    destruct (pocketRadius_bounds isCoarse) as (H & _). lra.
  - split; intros Ht; simpl; unfold onPointerMove; now rewrite Ht, Hc.
Qed.

(** A cue-ball drag in progress when the element or its screen matrix is
    missing. *)
Lemma pointer_without_screen_matrix_cue_drag :
  let s := setTarget T_cue initialState in
  let client := {| x := 640; y := 480 |} in
  (target s = T_cue /\ target s <> T_none)
  /\ clientToSvg None client = {| x := 0; y := 0 |}
  /\ onPointerUpEvent None s = setTarget T_none s
  /\ onPointerUpEvent None s <> s
  /\ onPointerDownEvent false (Some None) client s
     = setSelectedPocketId "TL" (setTarget (T_pocket "TL") s)
  /\ onPointerMoveEvent false (Some None) client s
     = setCue {| x := 12; y := 12 |} s.
Proof.
  intros s client.
  assert (Ht : target s = T_cue) by reflexivity.
  assert (Hn : target s <> T_none) by discriminate.
  destruct (pointer_without_screen_matrix false client s)
    as (H1 & _ & _ & H2 & H3 & H4 & H5 & _).
  exact (conj (conj Ht Hn)
           (conj H1 (conj H2 (conj (H3 Hn) (conj H4 (H5 Ht)))))).
Defined.

(** ** The further properties at concrete gestures (fine pointer) *)

(** After a tap on pocket TL. *)
Lemma selected_pocket_always_found_after_tap :
  let s := run false initialState [PointerDown {| x := 3; y := 4 |}; PointerUp] in
  reachable false s
  /\ exists pk d,
       In pk pockets
       /\ id pk = selectedPocketId s
       /\ selectedPocket s = Some pk
       /\ pocketData s = Some d
       /\ d = pocketDataFor (cue s) (obj s) pk.
Proof.
  intros s.
  assert (Hr : reachable false s) by (apply reachable_run; constructor).
  exact (conj Hr (selected_pocket_always_found false s Hr)).
Defined.

(** After dragging the object ball towards pocket TL. *)
Lemma ghost_ball_well_defined_after_drag :
  let s := run false initialState
             [PointerDown {| x := 600; y := 200 |};
              PointerMove {| x := -40; y := -40 |}; PointerUp] in
  reachable false s
  /\ (forall q, ghostBallForPocket q q = q)
  /\ (forall pk, In pk pockets ->
                 BALL_R <= dist (obj s) pk /\ BALL_R <= dist (cue s) pk)
  /\ exists pk d,
       selectedPocket s = Some pk /\ pocketData s = Some d
       /\ obj s <> at_point pk
       /\ dist (pd_ghost d) (obj s) = 2 * BALL_R.
Proof.
  intros s.
  assert (Hr : reachable false s) by (apply reachable_run; constructor).
  exact (conj Hr (ghost_ball_well_defined false s Hr)).
Defined.

(** During an object-ball drag. *)
Lemma pointer_move_frame_obj_drag :
  let s := setTarget T_obj initialState in
  let s' := onPointerMove false {| x := 100; y := 100 |} s in
  (target s <> T_cue /\ target s <> T_rail /\ (forall i, target s <> T_pocket i))
  /\ target s' = target s
  /\ mode s' = mode s
  /\ cue s' = cue s
  /\ railPoint s' = railPoint s
  /\ selectedPocketId s' = selectedPocketId s.
Proof.
  intros s s'.
  assert (H1 : target s <> T_cue) by discriminate.
  assert (H2 : target s <> T_rail) by discriminate.
  assert (H3 : forall i, target s <> T_pocket i) by (intros i; discriminate).
  destruct (pointer_move_frame false {| x := 100; y := 100 |} s)
    as (Ht & Hm & Hc & _ & Hr & Hs).
  exact (conj (conj H1 (conj H2 H3))
           (conj Ht (conj Hm (conj (Hc H1) (conj (Hr H2) (Hs H3)))))).
Defined.

(** After dragging the rail marker below the table. *)
Lemma rail_marker_snaps_to_nearest_after_drag :
  let s := run false initialState
             [PointerDown {| x := 700; y := 5 |};
              PointerMove {| x := 300; y := 900 |}; PointerUp] in
  reachable false s
  /\ in_table (railPoint s)
  /\ first_minimal (edge_distance (railPoint s)) (rd_edge (railData s))
  /\ on_edge (rd_rp (railData s)) (rd_edge (railData s))
  /\ clampToRail (rd_rp (railData s))
     = {| point := rd_rp (railData s); edge := rd_edge (railData s) |}.
Proof.
  intros s.
  assert (Hr : reachable false s) by (apply reachable_run; constructor).
  exact (conj Hr (rail_marker_snaps_to_nearest false s Hr)).
Defined.

(** A pocket drag that passes over pocket TL and then over the cloth. *)
Lemma pocket_drag_selects_TL :
  let s := setTarget (T_pocket "BR") initialState in
  let TL := mkPocket "TL" {| x := 0; y := 0 |} in
  let overTL := {| x := 3; y := 4 |} in
  let overCloth := {| x := 400; y := 250 |} in
  (target s = T_pocket "BR" /\ In TL pockets
   /\ dist overTL TL <= pocketMoveRadius false
   /\ (forall pk, In pk pockets -> ~ dist overCloth pk <= pocketMoveRadius false))
  /\ onPointerMove false overTL s = setSelectedPocketId "TL" s
  /\ onPointerMove false overCloth s = s.
Proof.
  intros s TL overTL overCloth.
  assert (Ht : target s = T_pocket "BR") by reflexivity.
  assert (Hin : In TL pockets) by (now left).
  assert (Hd : dist overTL TL <= pocketMoveRadius false).
  { unfold pocketMoveRadius, dist; simpl. apply hypot_le; lra. }
  assert (Hn : forall pk, In pk pockets ->
                          ~ dist overCloth pk <= pocketMoveRadius false).
  { intros q Hq; simpl in Hq;
      repeat (destruct Hq as [Hq | Hq];
              [subst q; unfold pocketMoveRadius, dist; simpl; unfold_consts;
               apply Rlt_not_le, hypot_gt; lra |]);
      contradiction. }
  destruct (pocket_drag_selects false overTL s "BR" Ht) as [H1 _].
  destruct (pocket_drag_selects false overCloth s "BR" Ht) as [_ H2].
  exact (conj (conj Ht (conj Hin (conj Hd Hn))) (conj (H1 TL Hin Hd) (H2 Hn))).
Defined.

(** A tap with a fine pointer on the object ball and on pocket TL. *)
Lemma coarse_pointer_enlarges_targets_initial :
  let s := initialState in
  let onObj := {| x := 600; y := 200 |} in
  let onPocket := {| x := 3; y := 4 |} in
  (target (onPointerDown false onObj s) <> T_none
   /\ target (onPointerDown false onPocket s) = T_pocket "TL")
  /\ target (onPointerDown true onObj s) <> T_none
  /\ onPointerDown true onPocket s = onPointerDown false onPocket s.
Proof.
  intros s onObj onPocket.
  assert (H1 : target (onPointerDown false onObj s) <> T_none).
  { rewrite onPointerDown_obj; [discriminate | prove_no_pocket | prove_miss
                               | prove_hit]. }
  assert (H2 : target (onPointerDown false onPocket s) = T_pocket "TL").
  { rewrite onPointerDown_first_pocket; [reflexivity |].
    unfold pocketDownRadius, dist; simpl. apply hypot_le; lra. }
  destruct (coarse_pointer_enlarges_targets onObj s) as (_ & _ & _ & _ & H3 & _).
  destruct (coarse_pointer_enlarges_targets onPocket s) as (_ & _ & _ & _ & _ & H4).
  exact (conj (conj H1 H2) (conj (H3 H1) (H4 "TL"%string H2))).
Defined.

(** Three gestures on the initial state: on the cue ball, on the object
    ball and on the rail marker, each with two moves. *)
Lemma drag_gesture_initial :
  let s := initialState in
  let onCue := {| x := 255; y := 345 |} in
  let onObj := {| x := 600; y := 200 |} in
  let onMarker := {| x := 700; y := 5 |} in
  let q0 := {| x := 500; y := 100 |} in
  let q := {| x := 2000; y := -50 |} in
  let moves := map PointerMove ([q0] ++ [q]) ++ [PointerUp] in
  (target (onPointerDown false onCue s) = T_cue
   /\ target (onPointerDown false onObj s) = T_obj
   /\ target (onPointerDown false onMarker s) = T_rail)
  /\ run false s (PointerDown onCue :: moves)
     = setTarget T_none (setCue (clampPointToInner q) s)
  /\ run false s (PointerDown onObj :: moves)
     = setTarget T_none (setObj (clampPointToInner q) s)
  /\ run false s (PointerDown onMarker :: moves)
     = setTarget T_none
         (setRailPoint
            {| x := clamp (x q) 0 TABLE_W; y := clamp (y q) 0 TABLE_H |} s).
Proof.
  intros s onCue onObj onMarker q0 q moves.
  assert (Hc : target (onPointerDown false onCue s) = T_cue).
  { rewrite onPointerDown_cue; [reflexivity | prove_no_pocket | prove_hit]. }
  assert (Ho : target (onPointerDown false onObj s) = T_obj).
  { rewrite onPointerDown_obj;
      [reflexivity | prove_no_pocket | prove_miss | prove_hit]. }
  assert (Hr : target (onPointerDown false onMarker s) = T_rail).
  { rewrite onPointerDown_rail;
      [reflexivity | prove_no_pocket | prove_miss | prove_miss |].
    unfold railHit; simpl. rewrite clampToRail_default; simpl.
    split; apply Rabs_le; lra. }
  destruct (drag_gesture false onCue [q0] q s) as (H1 & _ & _).
  destruct (drag_gesture false onObj [q0] q s) as (_ & H2 & _).
  destruct (drag_gesture false onMarker [q0] q s) as (_ & _ & H3).
  exact (conj (conj Hc (conj Ho Hr)) (conj (H1 Hc) (conj (H2 Ho) (H3 Hr)))).
Defined.

(** A tap on pocket TL changes the selection from BR to TL. *)
Lemma selection_changes_only_on_pocket_hit_tap :
  let s := initialState in
  let e := PointerDown {| x := 3; y := 4 |} in
  selectedPocketId (step false s e) <> selectedPocketId s
  /\ exists p pk,
       In pk pockets
       /\ selectedPocketId (step false s e) = id pk
       /\ ((e = PointerDown p /\ dist p pk <= pocketDownRadius false)
           \/ (e = PointerMove p /\ (exists i, target s = T_pocket i)
               /\ dist p pk <= pocketMoveRadius false)).
Proof.
  intros s e.
  assert (Hch : selectedPocketId (step false s e) <> selectedPocketId s).
  { unfold e; simpl. rewrite onPointerDown_first_pocket; [discriminate |].
    unfold pocketDownRadius, dist; simpl. apply hypot_le; lra. }
  exact (conj Hch (selection_changes_only_on_pocket_hit false s e Hch)).
Defined.
